(** * js-util/query: the predicate tree, its utilities and its type registry

    A shallow embedding of the TypeScript sources

    - [util/fetchNestedValue.ts], [util/getFieldValue.ts],
    - [QueryType.ts] (the enum and [QueryTypeHelper]),
    - [Query.ts] (the abstract root class),
    - [ConditionBase.ts] and [CombinationBase.ts],

    followed by the properties proved about them.

    Read-only operations ([test], [queryArgumentsArray], ...) are functions
    over the tree of nodes.  Operations that depend on object identity and
    on mutation in place are written over an explicit store: [replaceQuery]
    over a heap of query objects, [keyValuesMap] over a heap of [Map]
    objects, [fetchNestedValue] returns the path array as the call leaves it,
    and the registry threads its two lazily built static tables. *)

From Stdlib Require Import ZArith Ascii String List Bool Lia.
From stdpp Require Import base option list gmap strings pretty.

#[local] Set Warnings "-register-all".

Open Scope string_scope.
Open Scope list_scope.

(** ** JavaScript values *)

Module JS.

(** The values a candidate, an argument or a path step can be.  Numbers are
    the integral ones ([NaN], infinities and fractions are not represented).
    An object carries its identity [ref]; [props] lists the members that a
    read [obj[key]] can see (a key that is not listed reads as [undefined]).
    A [Map] has, apart from that, its entries in insertion order.

    There are no functions among the values.  So [props] lists the
    members of its own that an object or a [Map] has, data all of them;
    what it inherits from its prototype, which is methods but for the
    [size] of a [Map], is not listed.  The entries of a [Map] have
    distinct keys. *)
Inductive Value : Type :=
| VUndefined
| VNull
| VBool (b : bool)
| VNum (n : Z)
| VStr (s : string)
| VObject (ref : nat) (props : list (string * Value))
| VMap (ref : nat) (entries : list (Value * Value)) (props : list (string * Value)).

(** [a === b]: primitives by value, objects by identity. *)
Definition strict_eq (a b : Value) : bool :=
  match a, b with
  | VUndefined, VUndefined => true
  | VNull, VNull => true
  | VBool x, VBool y => Bool.eqb x y
  | VNum x, VNum y => Z.eqb x y
  | VStr x, VStr y => String.eqb x y
  | VObject r _, VObject r' _ => Nat.eqb r r'
  | VMap r _ _, VMap r' _ _ => Nat.eqb r r'
  | _, _ => false
  end.

(** [v == null]: true of [null] and of [undefined] only. *)
Definition loose_null (v : Value) : bool :=
  match v with
  | VUndefined | VNull => true
  | _ => false
  end.

(** Truthiness of a string ([!s] is [negb (truthy_str s)]). *)
Definition truthy_str (s : string) : bool :=
  match s with
  | EmptyString => false
  | _ => true
  end.

(** A value of static type [string | null]: [None] is [null]. *)
Definition truthy_ostr (s : option string) : bool :=
  match s with
  | Some s => truthy_str s
  | None => false
  end.

(** The member under [key] among those of [props], [undefined] when there
    is none. *)
Fixpoint assoc (key : string) (props : list (string * Value)) : Value :=
  match props with
  | [] => VUndefined
  | (k, v) :: rest => if String.eqb k key then v else assoc key rest
  end.

(** The member under [key] among those of [props], if there is one. *)
Fixpoint own (key : string) (props : list (string * Value)) : option Value :=
  match props with
  | [] => None
  | (k, v) :: rest => if String.eqb k key then Some v else own key rest
  end.

(** [s[key]] for a key that is the decimal form of an index of [s]: the
    character there, as a string of length one. *)
Definition char_at (s : string) (key : string) : Value :=
  match List.find (fun i => String.eqb (pretty (Z.of_nat i)) key)
                  (seq 0 (String.length s)) with
  | Some i =>
      match String.get i s with
      | Some c => VStr (String c EmptyString)
      | None => VUndefined
      end
  | None => VUndefined
  end.

(** [obj[key]] for a non-null [obj].  An object has the members of its
    own.  A [Map] has those and, when none of them has that name, [size],
    the number of its entries.  A string has [length] and a member for
    each of its indices.  The methods that an object, a [Map] or a
    primitive inherits are functions, which are no values here: the name
    of one reads as [undefined], and the read is that of JavaScript on
    every other key. *)
Definition getProperty (obj : Value) (key : string) : Value :=
  match obj with
  | VObject _ props => assoc key props
  | VMap _ entries props =>
      match own key props with
      | Some v => v
      | None =>
          if String.eqb key "size" then VNum (Z.of_nat (List.length entries))
          else VUndefined
      end
  | VStr s =>
      if String.eqb key "length" then VNum (Z.of_nat (String.length s))
      else char_at s key
  | _ => VUndefined
  end.

(** [Map.prototype.get]: the value of the first entry whose key is the
    same value, [undefined] when there is none. *)
Fixpoint map_get (entries : list (Value * Value)) (key : Value) : Value :=
  match entries with
  | [] => VUndefined
  | (k, v) :: rest => if strict_eq k key then v else map_get rest key
  end.

(** Strings are ASCII.  The case mappings are [toLowerCase] and
    [toUpperCase] as they act on the letters A-Z and a-z; those of other
    scripts are not represented, so the two functions are the ones of
    JavaScript on the texts that [ascii_text] accepts. *)
Fixpoint ascii_text (s : string) : bool :=
  match s with
  | EmptyString => true
  | String c rest => (nat_of_ascii c <? 128)%nat && ascii_text rest
  end.

Definition lower_ascii (c : ascii) : ascii :=
  let n := nat_of_ascii c in
  if (65 <=? n)%nat && (n <=? 90)%nat then ascii_of_nat (n + 32) else c.

Definition upper_ascii (c : ascii) : ascii :=
  let n := nat_of_ascii c in
  if (97 <=? n)%nat && (n <=? 122)%nat then ascii_of_nat (n - 32) else c.

Fixpoint map_string (f : ascii -> ascii) (s : string) : string :=
  match s with
  | EmptyString => EmptyString
  | String c rest => String (f c) (map_string f rest)
  end.

Definition toLowerCase : string -> string := map_string lower_ascii.
Definition toUpperCase : string -> string := map_string upper_ascii.

(** [s.split(sep)] for a one-character separator: never the empty array,
    [split "." ""] is [[""]]. *)
Fixpoint split (sep : ascii) (s : string) : list string :=
  match s with
  | EmptyString => [EmptyString]
  | String c rest =>
      if Ascii.eqb c sep then EmptyString :: split sep rest
      else match split sep rest with
           | [] => [String c EmptyString]
           | w :: ws => String c w :: ws
           end
  end.

(** A [Map] object as a typed value: [Map<string, any>] arguments and
    fields are of this type, [None] standing for [null]. *)
Record MapObj : Type := mkMap {
  map_ref : nat;
  map_entries : list (Value * Value);
  map_props : list (string * Value)
}.

Definition of_map (m : MapObj) : Value :=
  VMap (map_ref m) (map_entries m) (map_props m).

End JS.

Import JS.

(** ** [util/getFieldValue.ts] *)

(** [field] has static type [string], the callers pass a [string | null]. *)
Definition getFieldValue (t : Value) (field : option string) : Value :=
  match field with
  | None => t
  | Some f =>
      if String.eqb (toLowerCase f) "this" then t
      else match t with
           | VMap _ entries _ => map_get entries (VStr f)
           | _ => VNull
           end
  end.

(** ** [util/fetchNestedValue.ts] *)

(** The [path] argument: an array of keys, owned by the caller, or a string
    that the function splits into an array of its own. *)
Inductive Path : Type :=
| PathArray (keys : list string)
| PathString (s : string).

(** The body of the function once [path] is an array.  [path.shift()]
    removes the first key from that very array, which the recursive call
    receives again, so the array is threaded through: the second component
    is the array as the call leaves it. *)
Fixpoint fetchNestedValue_walk (obj : Value) (path : list string) (fallback : Value)
  : Value * list string :=
  if loose_null obj then (fallback, path)
  else
    match path with
    | [] => (fallback, [])
    | key :: rest =>
        let val := getProperty obj key in
        match val with
        | VNull | VUndefined => (fallback, rest)
        | _ =>
            match rest with
            | [] => (val, rest)
            | _ :: _ => fetchNestedValue_walk val rest fallback
            end
        end
    end.

(** The default of the parameter [fallback = null]: it takes the place
    of an argument that is [undefined], passed or left out. *)
Definition default_null (fallback : Value) : Value :=
  match fallback with
  | VUndefined => VNull
  | _ => fallback
  end.

(** The result, and the caller's [path] after the call.  The recursive
    calls pass on a fallback that the default has been applied to. *)
Definition fetchNestedValue (obj : Value) (path : Path) (fallback : Value)
  : Value * Path :=
  let fallback := default_null fallback in
  match path with
  | PathArray keys =>
      let '(v, keys') := fetchNestedValue_walk obj keys fallback in
      (v, PathArray keys')
  | PathString s =>
      (fst (fetchNestedValue_walk obj (split "." s) fallback), PathString s)
  end.

(** ** [QueryType.ts] *)

Inductive QueryType : Type :=
| AND | OR | NOT
| EQUALS | NOT_EQUALS
| LESS_THAN | LESS_THAN_OR_EQUALS
| MORE_THAN | MORE_THAN_OR_EQUALS
| LIKE.

(** What a call can end in: a returned value or a thrown exception.
    [Error message] is [new Error(message)]; [TypeError] is what the engine
    raises for a member read on [undefined] or [null]. *)
Inductive Exception : Type :=
| Error (message : string)
| TypeError.

Inductive Outcome (A : Type) : Type :=
| Return (a : A)
| Throw (e : Exception).
Arguments Return {A} a.
Arguments Throw {A} e.

Module QueryTypeHelper.

#[local] Open Scope Z_scope.

Definition getValue (queryType : QueryType) : Z :=
  match queryType with
  | AND => 0 | OR => 1 | NOT => 2
  | EQUALS => 10 | NOT_EQUALS => 11
  | LESS_THAN => 20 | LESS_THAN_OR_EQUALS => 21
  | MORE_THAN => 30 | MORE_THAN_OR_EQUALS => 31
  | LIKE => 40
  end.

(** The members of the enum, in declaration order. *)
Definition members : list (string * QueryType) :=
  [ ("AND", AND); ("OR", OR); ("NOT", NOT);
    ("EQUALS", EQUALS); ("NOT_EQUALS", NOT_EQUALS);
    ("LESS_THAN", LESS_THAN); ("LESS_THAN_OR_EQUALS", LESS_THAN_OR_EQUALS);
    ("MORE_THAN", MORE_THAN); ("MORE_THAN_OR_EQUALS", MORE_THAN_OR_EQUALS);
    ("LIKE", LIKE) ].

(** [Object.keys(QueryType)]: a numeric enum compiles to an object that
    maps every name to its number and every number back to its name; the
    integer keys come first, in ascending order, then the names. *)
Definition Object_keys : list string :=
  map (fun m => pretty (getValue (snd m))) members ++ map fst members.

(** [QueryType[key]] for a key that names a member. *)
Fixpoint member_at (ms : list (string * QueryType)) (key : string) : option QueryType :=
  match ms with
  | [] => None
  | (k, q) :: rest => if String.eqb k key then Some q else member_at rest key
  end.

Definition is_digit (c : ascii) : bool :=
  let n := nat_of_ascii c in ((48 <=? n)%nat && (n <=? 57)%nat)%bool.

Fixpoint all_digits (s : string) : bool :=
  match s with
  | EmptyString => true
  | String c rest => (is_digit c && all_digits rest)%bool
  end.

(** [isNaN(Number(key))], on the keys of an enum object: a run of decimal
    digits converts to a number, an identifier does not. *)
Definition isNaN_Number (key : string) : bool := negb (all_digits key).

(** The two static fields, [null] until the first lookup. *)
Record Registry : Type := mkRegistry {
  nameToTypeMap : option (gmap string QueryType);
  idToTypeMap : option (gmap Z QueryType)
}.

Definition initial : Registry := mkRegistry None None.

Definition build_step (acc : gmap string QueryType * gmap Z QueryType) (key : string)
  : gmap string QueryType * gmap Z QueryType :=
  match member_at members key with
  | Some enumMember =>
      (<[key := enumMember]> (fst acc), <[getValue enumMember := enumMember]> (snd acc))
  | None => acc
  end.

Definition initializeTypeMaps (r : Registry) : Registry :=
  match nameToTypeMap r, idToTypeMap r with
  | Some _, Some _ => r
  | _, _ =>
      let names := filter (fun key => isNaN_Number key = true) Object_keys in
      let temp := fold_left build_step names (∅, ∅) in
      match nameToTypeMap r with
      | None => mkRegistry (Some (fst temp)) (Some (snd temp))
      | Some _ => r
      end
  end.

(** [None] is [undefined]. *)
Definition fromID (id : Z) (r : Registry) : option QueryType * Registry :=
  let r := initializeTypeMaps r in
  (match idToTypeMap r with Some m => m !! id | None => None end, r).

Definition fromName (name : string) (r : Registry) : option QueryType * Registry :=
  let r := initializeTypeMaps r in
  (match nameToTypeMap r with Some m => m !! toUpperCase name | None => None end, r).

(** [type.toString()].  [undefined] has no members, so the call throws.
    It throws as well on an object or a [Map] that has a member of its own
    under that name, which is no function; any other answers with the
    text of [Object.prototype.toString].  A number is written with all its
    decimal digits, as JavaScript writes the integers below 2^53 in
    absolute value; a larger one is written there with the fewest digits
    that identify it, and from 10^21 on with an exponent. *)
Definition toString (type : Value) : Outcome string :=
  match type with
  | VUndefined | VNull => Throw TypeError
  | VBool true => Return "true"
  | VBool false => Return "false"
  | VNum n => Return (pretty n)
  | VStr s => Return s
  | VObject _ props =>
      match own "toString" props with
      | Some _ => Throw TypeError
      | None => Return "[object Object]"
      end
  | VMap _ _ props =>
      match own "toString" props with
      | Some _ => Throw TypeError
      | None => Return "[object Map]"
      end
  end.

(** The tail of [fromTypeObject]: [mType === undefined] throws, with the
    offending value rendered into the message. *)
Definition checked (type : Value) (mType : option QueryType) (r : Registry)
  : Outcome (option QueryType) * Registry :=
  match mType with
  | Some q => (Return (Some q), r)
  | None =>
      match toString type with
      | Return s => (Throw (Error ("Invalid QueryType for: " ++ s)), r)
      | Throw e => (Throw e, r)
      end
  end.

(** The returned [None] is [null]. *)
Definition fromTypeObject (type : Value) (r : Registry)
  : Outcome (option QueryType) * Registry :=
  match type with
  | VNull => (Return None, r)
  | VNum id =>
      let '(mType, r') := fromID id r in
      checked type mType r'
  | _ =>
      match toString type with
      | Throw e => (Throw e, r)
      | Return name =>
          let '(mType, r') := fromName name r in
          checked type mType r'
      end
  end.

End QueryTypeHelper.

(** ** The predicate tree: [Query.ts], [ConditionBase.ts], [CombinationBase.ts] *)

(** The identity of a node object. *)
Definition loc := nat.

(** A tree of nodes.  [Condition] is an instance of (a subclass of)
    [ConditionBase]: its fields, and the [testValues] method it runs, which
    the concrete leaf kinds override.  [Combination] is an instance of
    [CombinationBase], whose constructor only accepts a [Map] for
    [_argMap]. *)
Inductive Query : Type :=
| Condition (self : loc) (cmp : Value -> Value -> bool)
    (_fieldName : option string) (_argName : option string) (_argMap : option MapObj)
| Combination (self : loc) (_children : list Query) (_argMap : MapObj).

Definition self_of (q : Query) : loc :=
  match q with
  | Condition l _ _ _ _ => l
  | Combination l _ _ => l
  end.

(** *** [ConditionBase] *)

(** [ConditionBase.testValues], the comparison of the base class. *)
Definition testValues (fieldValue argValue : Value) : bool :=
  match argValue with
  | VNull => strict_eq fieldValue VNull
  | _ => strict_eq argValue fieldValue
  end.

Definition getArgumentValue (argMap : option MapObj) (argName : option string) : Value :=
  match argMap, argName with
  | Some m, Some name =>
      if truthy_str name
      then fst (fetchNestedValue (of_map m) (PathString name) VNull)
      else VNull
  | _, _ => VNull
  end.

(** [this._fieldName?.toLowerCase()] compared with a literal: [undefined]
    for a [null] field name equals no string. *)
Definition field_is (literal : string) (fieldName : option string) : bool :=
  match fieldName with
  | Some f => String.eqb (toLowerCase literal) (toLowerCase f)
  | None => false
  end.

Definition getAndTestFieldValue (cmp : Value -> Value -> bool)
    (fieldName argName : option string) (t : Value) (argMap : option MapObj) : bool :=
  let argValue := getArgumentValue argMap argName in
  let otherwise := cmp (getFieldValue t fieldName) argValue in
  match t with
  | VMap _ entries _ =>
      if field_is "_key" fieldName
      then existsb (fun e => cmp (fst e) argValue) entries
      else if field_is "_val" fieldName
      then existsb (fun e => cmp (snd e) argValue) entries
      else otherwise
  | _ => otherwise
  end.

(** *** [CombinationBase] *)

Section ChildrenLoop.
Context {A : Type} (matches : A -> bool).

(** The loop of [CombinationBase.testWithArgMap], from a given [result]:
    the answer, and the children whose test the loop has called, in call
    order. *)
Fixpoint testChildren (result : bool) (children : list A) : bool * list A :=
  match children with
  | [] => (result, [])
  | child :: rest =>
      if matches child
      then let '(b, called) := testChildren true rest in (b, child :: called)
      else (false, [child])
  end.
End ChildrenLoop.

(** *** [test] and [testWithArgMap], by dynamic dispatch *)

Fixpoint testWithArgMap (q : Query) (t : Value) (argMap : option MapObj) : bool :=
  match q with
  | Condition _ cmp fieldName argName _ =>
      getAndTestFieldValue cmp fieldName argName t argMap
  | Combination _ children _ =>
      fst (testChildren (fun child => testWithArgMap child t argMap) false children)
  end.

Definition test (q : Query) (t : Value) : bool :=
  match q with
  | Condition _ cmp fieldName argName argMap =>
      getAndTestFieldValue cmp fieldName argName t argMap
  | Combination _ _ argMap =>
      testWithArgMap q t (Some argMap)
  end.

(** *** Accessors of [Query], as the two families override them *)

Definition isBasicOperator (q : Query) : bool :=
  match q with
  | Condition _ _ _ _ _ => true
  | Combination _ _ _ => false
  end.

Definition isCombinationOperator (q : Query) : bool :=
  match q with
  | Condition _ _ _ _ _ => false
  | Combination _ _ _ => true
  end.

Definition fieldName (q : Query) : option string :=
  match q with
  | Condition _ _ f _ _ => f
  | Combination _ _ _ => None
  end.

Definition argumentName (q : Query) : option string :=
  match q with
  | Condition _ _ _ a _ => a
  | Combination _ _ _ => None
  end.

(** [CombinationBase] does not override it: a combination answers [null]. *)
Definition defaultArgumentMap (q : Query) : option MapObj :=
  match q with
  | Condition _ _ _ _ m => m
  | Combination _ _ _ => None
  end.

Definition childrenQuery (q : Query) : option (list Query) :=
  match q with
  | Condition _ _ _ _ _ => None
  | Combination _ children _ => Some children
  end.

(** [map && name ? map.get(name) : null] *)
Definition defaultArgumentValue (q : Query) : Value :=
  match defaultArgumentMap q, argumentName q with
  | Some map, Some name =>
      if truthy_str name then map_get (map_entries map) (VStr name) else VNull
  | _, _ => VNull
  end.

(** *** [queryArgumentsArray] *)

(** [ret] is the one array that every call pushes onto. *)
Fixpoint _queryArgumentsArray (q : Query) (ret : list Value) : list Value :=
  match q with
  | Condition _ _ _ _ _ =>
      let value := defaultArgumentValue q in
      match value with
      | VNull => ret
      | _ => ret ++ [value]
      end
  | Combination _ children _ =>
      fold_left (fun ret child => _queryArgumentsArray child ret) children ret
  end.

Definition queryArgumentsArray (q : Query) : list Value :=
  _queryArgumentsArray q [].

(** *** [keyValuesMap] *)

(** A [Map<string, any[]>]: its entries in insertion order.  The maps that
    the extraction creates and fills live in a heap, a reference being an
    index into it. *)
Abbreviation KeyValues := (list (string * list Value)).
Abbreviation MapHeap := (list KeyValues).

(** [new Map()] *)
Definition new_Map (h : MapHeap) : nat * MapHeap := (length h, h ++ [[]]).

(** [if (!m.has(key)) m.set(key, []); m.get(key).push(val)] *)
Fixpoint push_at (key : string) (val : Value) (m : KeyValues) : KeyValues :=
  match m with
  | [] => [(key, [val])]
  | (k, bucket) :: rest =>
      if String.eqb k key then (k, bucket ++ [val]) :: rest
      else (k, bucket) :: push_at key val rest
  end.

(** [ConditionBase._keyValuesMap]: fills the map it is given, and returns
    that same reference. *)
Definition _keyValuesMap (fieldName argName : option string) (argMap : option MapObj)
    (mapToReturn : nat) (h : MapHeap) : nat * MapHeap :=
  match fieldName with
  | Some key =>
      if truthy_str key then
        let val :=
          match argMap, argName with
          | Some m, Some name =>
              if truthy_str name then map_get (map_entries m) (VStr name) else VNull
          | _, _ => VNull
          end in
        (mapToReturn, alter (push_at key val) mapToReturn h)
      else (mapToReturn, h)
  | None => (mapToReturn, h)
  end.

(** [child.keyValuesMap(mapToReturn)], by dynamic dispatch.  A leaf runs
    [Query.keyValuesMap], which declares no parameter and passes a new map
    to [_keyValuesMap]; a combination runs the override of
    [CombinationBase].  [None] is [undefined], the value of [mapToReturn]
    when a caller passes no argument. *)
Fixpoint keyValuesMap (q : Query) (mapToReturn : option nat) (h : MapHeap)
  : option nat * MapHeap :=
  match q with
  | Condition _ _ fieldName argName argMap =>
      let '(fresh, h) := new_Map h in
      let '(ret, h) := _keyValuesMap fieldName argName argMap fresh h in
      (Some ret, h)
  | Combination _ children _ =>
      fold_left (fun st child => keyValuesMap child (fst st) (snd st))
                children (mapToReturn, h)
  end.

(** *** The constructor of [CombinationBase] *)

(** What a caller can pass: a node, an array of nodes, or any other value
    (a [Map], [null], [undefined] for a missing third argument, ...). *)
Inductive Arg : Type :=
| AQuery (q : Query)
| AArray (elems : list Query)
| AValue (v : Value).

Definition as_child (a : Arg) : list Query :=
  match a with
  | AQuery q => [q]
  | _ => []
  end.

(** [self] is the identity of the object under construction. *)
Definition new_CombinationBase (self : loc) (arg1 arg2 arg3 : Arg) : Outcome Query :=
  match arg1, arg2 with
  | AArray elems, AValue (VMap r entries props) =>
      Return (Combination self elems (mkMap r entries props))
  | _, _ =>
      match arg3 with
      | AValue (VMap r entries props) =>
          Return (Combination self (as_child arg1 ++ as_child arg2) (mkMap r entries props))
      | _ => Throw (Error "Invalid arguments types for CombinationBase constructor")
      end
  end.

(** *** [replaceQuery], over the heap of node objects *)

(** A node object: a combination holds the identities of its children in
    its own array. *)
Inductive QueryObj : Type :=
| ConditionObj (cmp : Value -> Value -> bool)
    (_fieldName : option string) (_argName : option string) (_argMap : option MapObj)
| CombinationObj (_children : list loc) (_argMap : MapObj).

Abbreviation heap := (gmap loc QueryObj).

(** [replaceQuery] and its loop over [subList], which is the live array of
    the receiver: every iteration reads [subList[i]] from the heap as it is
    then.  [fuel] bounds the depth of the calls; [None] is a run that
    needs more. *)
Fixpoint replaceQuery (fuel : nat) (h : heap) (this original replacement : loc)
  : option (loc * heap) :=
  match fuel with
  | O => None
  | S fuel =>
      if decide (this = original) then Some (replacement, h)
      else
        match h !! this with
        | Some (CombinationObj _ _) =>
            match replaceLoop fuel h this 0 original replacement with
            | Some h' => Some (this, h')
            | None => None
            end
        | _ => Some (this, h)
        end
  end
with replaceLoop (fuel : nat) (h : heap) (this : loc) (i : nat) (original replacement : loc)
  : option heap :=
  match fuel with
  | O => None
  | S fuel =>
      match h !! this with
      | Some (CombinationObj subList argMap) =>
          match subList !! i with
          | None => Some h
          | Some child =>
              if decide (child = original)
              then replaceLoop fuel
                     (<[this := CombinationObj (<[i := replacement]> subList) argMap]> h)
                     this (S i) original replacement
              else
                match replaceQuery fuel h child original replacement with
                | Some (_, h') => replaceLoop fuel h' this (S i) original replacement
                | None => None
                end
          end
      | _ => Some h
      end
  end.

(** ** The rest of [Query.ts] *)

(** *** Searching *)

(** A collection of candidates: an array, or a [Map] of them. *)
Inductive Collection : Type :=
| CArray (items : list Value)
| CMap (candidates : MapObj).

Definition searchArray (q : Query) (items : list Value) : list Value :=
  List.filter (fun item => test q item) items.

(** [Array.from(map.values())]: the values, in insertion order. *)
Definition searchMap (q : Query) (candidates : MapObj) : list Value :=
  List.filter (fun value => test q value) (List.map snd (map_entries candidates)).

Definition search (q : Query) (collection : Collection) : list Value :=
  match collection with
  | CArray items => searchArray q items
  | CMap candidates => searchMap q candidates
  end.

(** *** [fieldQueryMap] *)

(** [if (!ret.has(key)) ret.set(key, []); ret.get(key).push(x)], on the
    entries of a [Map] of arrays, in insertion order. *)
Fixpoint push_bucket {A : Type} (key : string) (x : A) (ret : list (string * list A))
  : list (string * list A) :=
  match ret with
  | [] => [(key, [x])]
  | (k, bucket) :: rest =>
      if String.eqb k key then (k, bucket ++ [x]) :: rest
      else (k, bucket) :: push_bucket key x rest
  end.

(** [ret] is the one map that every call fills and returns. *)
Fixpoint fieldQueryMap (q : Query) (ret : list (string * list Query))
  : list (string * list Query) :=
  match q with
  | Condition _ _ fieldName _ _ =>
      match fieldName with
      | Some name => if truthy_str name then push_bucket name q ret else ret
      | None => ret
      end
  | Combination _ children _ =>
      fold_left (fun ret child => fieldQueryMap child ret) children ret
  end.

(** *** [queryArgumentsMap] *)




(** *** [toString] and [toSqlString] *)

(** The double quote character. *)
Definition dquote : string := String (ascii_of_nat 34) EmptyString.

(** A [string | null] inside a template literal. *)
Definition template (s : option string) : string :=
  match s with
  | Some s => s
  | None => "null"
  end.

(** The characters that [trim] removes, among the ASCII ones: tab, line
    feed, vertical tab, form feed, carriage return and space. *)
Definition is_space (c : ascii) : bool :=
  let n := nat_of_ascii c in
  ((9 <=? n)%nat && (n <=? 13)%nat) || (n =? 32)%nat.

Fixpoint trimStart (s : string) : string :=
  match s with
  | EmptyString => EmptyString
  | String c rest => if is_space c then trimStart rest else s
  end.

(** The string without its trailing spaces. *)
Fixpoint trimEnd (s : string) : string :=
  match s with
  | EmptyString => EmptyString
  | String c rest =>
      match trimEnd rest with
      | EmptyString => if is_space c then EmptyString else String c EmptyString
      | kept => String c kept
      end
  end.

Definition trim (s : string) : string := trimEnd (trimStart s).

(** [s.replace(/:[0-9]+/g, "?")]: every colon that a digit follows is
    replaced, with all the digits after it, by one question mark.
    [in_digits] is set while the digits of a match are being dropped. *)
Fixpoint replace_placeholders (in_digits : bool) (s : string) : string :=
  match s with
  | EmptyString => EmptyString
  | String c rest =>
      if in_digits && QueryTypeHelper.is_digit c
      then replace_placeholders true rest
      else
        match rest with
        | String d _ =>
            if Ascii.eqb c ":" && QueryTypeHelper.is_digit d
            then String "?" (replace_placeholders true rest)
            else String c (replace_placeholders false rest)
        | EmptyString => String c EmptyString
        end
  end.

Section Rendering.

(** [operatorSymbol()], which the concrete kinds of node override. *)
Variable operatorSymbol : Query -> string.

(** One round of the [forEach] of [CombinationBase.toString]: [rendered]
    is the text of the child. *)
Definition render_step (symbol : string) (acc : string * nat) (child : Query)
    (rendered : string) : string * nat :=
  let '(ret, index) := acc in
  let ret := if (0 <? index)%nat then (ret ++ " " ++ symbol)%string else ret in
  let wrapped :=
    if isCombinationOperator child then ("(" ++ rendered ++ ")")%string else rendered in
  ((ret ++ " " ++ wrapped)%string, S index).

Fixpoint toString (q : Query) : string :=
  match q with
  | Condition _ _ fieldName argName _ =>
      (dquote ++ template fieldName ++ dquote ++ " " ++ operatorSymbol q
       ++ " :" ++ template argName)%string
  | Combination _ children _ =>
      let symbol := operatorSymbol q in
      let ret :=
        fst (fold_left (fun acc child => render_step symbol acc child (toString child))
                       children (EmptyString, 0)) in
      let ret :=
        if (length children =? 1)%nat && negb (String.eqb symbol "AND")
        then (symbol ++ (if String.prefix "(" ret then ret else "( " ++ ret ++ " )"))%string
        else ret in
      trim ret
  end.

Definition toSqlString (q : Query) : string :=
  replace_placeholders false (toString q).

End Rendering.

(** The symbols of the two base classes. *)
Definition baseSymbol (q : Query) : string :=
  match q with
  | Condition _ _ _ _ _ => "="
  | Combination _ _ _ => "AND"
  end.

(** ** Vocabulary of the statements *)

(** The [_argMap] field of a node, as the constructor stored it. *)
Definition stored_argMap (q : Query) : option MapObj :=
  match q with
  | Condition _ _ _ _ m => m
  | Combination _ _ m => Some m
  end.

(** *** The registry *)

(** The states the two static fields go through: both [null], then both
    built. *)
Definition initialized : QueryTypeHelper.Registry :=
  QueryTypeHelper.initializeTypeMaps QueryTypeHelper.initial.

Definition reachable (r : QueryTypeHelper.Registry) : Prop :=
  r = QueryTypeHelper.initial \/ r = initialized.

Definition canonicalName (q : QueryType) : string :=
  match q with
  | AND => "AND" | OR => "OR" | NOT => "NOT"
  | EQUALS => "EQUALS" | NOT_EQUALS => "NOT_EQUALS"
  | LESS_THAN => "LESS_THAN" | LESS_THAN_OR_EQUALS => "LESS_THAN_OR_EQUALS"
  | MORE_THAN => "MORE_THAN" | MORE_THAN_OR_EQUALS => "MORE_THAN_OR_EQUALS"
  | LIKE => "LIKE"
  end.



(** *** Constructor arguments *)

Definition is_array (a : Arg) : bool :=
  match a with
  | AArray _ => true
  | _ => false
  end.

Definition is_map (a : Arg) : bool :=
  match a with
  | AValue (VMap _ _ _) => true
  | _ => false
  end.

Definition is_query (a : Arg) : bool :=
  match a with
  | AQuery _ => true
  | _ => false
  end.

(** *** Trees in the heap *)

(** What [replaceQuery] leaves in a slot that held [c]. *)
Definition spliced (original replacement c : loc) : loc :=
  if decide (c = original) then replacement else c.

(** The combinations of [q] that a rewrite of [original] walks through:
    those of the tree, cut below every occurrence of [original]. *)
Fixpoint walked (original : loc) (q : Query) : list loc :=
  match q with
  | Condition _ _ _ _ _ => []
  | Combination l children _ =>
      if decide (l = original) then []
      else l :: flat_map (walked original) children
  end.

(** The heap holds the tree [q]: every node of [q] is the object at its
    identity, a combination holding the identities of its children. *)
Inductive repr (h : heap) : Query -> Prop :=
| repr_condition l cmp f a m :
    h !! l = Some (ConditionObj cmp f a m) ->
    repr h (Condition l cmp f a m)
| repr_combination l children m :
    h !! l = Some (CombinationObj (map self_of children) m) ->
    Forall (repr h) children ->
    repr h (Combination l children m).

(** The same, with nothing asked below an occurrence of [original]. *)
Inductive repr_upto (h : heap) (original : loc) : Query -> Prop :=
| upto_original q :
    self_of q = original ->
    repr_upto h original q
| upto_condition l cmp f a m :
    h !! l = Some (ConditionObj cmp f a m) ->
    repr_upto h original (Condition l cmp f a m)
| upto_combination l children m :
    h !! l = Some (CombinationObj (map self_of children) m) ->
    Forall (repr_upto h original) children ->
    repr_upto h original (Combination l children m).

(** The effect of a rewrite on the heap: the combinations in [ls] have
    every slot spliced, nothing else changes. *)
Definition rewritten (original replacement : loc) (ls : list loc) (h h' : heap) : Prop :=
  (forall l, l ∈ ls ->
     exists children m,
       h !! l = Some (CombinationObj children m)
       /\ h' !! l = Some (CombinationObj (map (spliced original replacement) children) m))
  /\ (forall l, l ∉ ls -> h' !! l = h !! l).

(** The two tables once built, as plain maps over the members. *)
Definition name_table : gmap string QueryType :=
  list_to_map QueryTypeHelper.members.

Definition id_table : gmap Z QueryType :=
  list_to_map (map (fun m => (QueryTypeHelper.getValue (snd m), snd m))
                   QueryTypeHelper.members).

(** What a rewrite of [original] by [replacement] has to do at [q], from
    any heap that holds [q]: with fuel enough, return [q] itself, or
    [replacement] when [q] is [original], having spliced every slot of
    the combinations it walks through. *)
Definition rewrites (original replacement : loc) (q : Query) : Prop :=
  forall h : heap,
    repr_upto h original q ->
    NoDup (walked original q) ->
    exists n, forall fuel, n <= fuel ->
      exists h',
        replaceQuery fuel h (self_of q) original replacement
        = Some (spliced original replacement (self_of q), h')
        /\ rewritten original replacement (walked original q) h h'.

(** *** Trees, leaves, maps of buckets *)

(** The leaves of a tree, from left to right. *)
Fixpoint leaves (q : Query) : list Query :=
  match q with
  | Condition _ _ _ _ _ => [q]
  | Combination _ children _ => flat_map leaves children
  end.

(** The identities of all the combinations of a tree. *)
Fixpoint combinations (q : Query) : list loc :=
  match q with
  | Condition _ _ _ _ _ => []
  | Combination l children _ => l :: flat_map combinations children
  end.

(** The identities of all the nodes of a tree. *)
Fixpoint identities (q : Query) : list loc :=
  match q with
  | Condition l _ _ _ _ => [l]
  | Combination l children _ => l :: flat_map identities children
  end.

(** The tree [q] with the tree [other] in place of every node whose
    identity is [original]. *)
Fixpoint substitute (original : loc) (other : Query) (q : Query) : Query :=
  match q with
  | Condition l _ _ _ _ => if decide (l = original) then other else q
  | Combination l children m =>
      if decide (l = original) then other
      else Combination l (map (substitute original other) children) m
  end.

(** The tree [q] with [m] as the stored argument map of every node. *)
Fixpoint with_argMap (m : MapObj) (q : Query) : Query :=
  match q with
  | Condition l cmp f a _ => Condition l cmp f a (Some m)
  | Combination l children _ => Combination l (map (with_argMap m) children) m
  end.

(** [ret.get(key)] on the entries of a [Map]: [None] is [undefined]. *)
Fixpoint entry {A : Type} (key : string) (ret : list (string * A)) : option A :=
  match ret with
  | [] => None
  | (k, v) :: rest => if String.eqb k key then Some v else entry key rest
  end.

(** The bucket of [key], empty when there is none. *)
Definition bucket {A : Type} (key : string) (ret : list (string * list A)) : list A :=
  match entry key ret with
  | Some b => b
  | None => []
  end.

(** The leaf is on the field [name]. *)
Definition on_field (name : string) (leaf : Query) : bool :=
  match fieldName leaf with
  | Some f => String.eqb f name
  | None => false
  end.


(** *** Text *)

(** No colon of [s] has a digit after it. *)
Fixpoint no_placeholder (s : string) : bool :=
  match s with
  | EmptyString => true
  | String c rest =>
      match rest with
      | String d _ =>
          negb (Ascii.eqb c ":" && QueryTypeHelper.is_digit d) && no_placeholder rest
      | EmptyString => true
      end
  end.

(** The character [c] does not occur in [s]. *)
Fixpoint without (c : ascii) (s : string) : bool :=
  match s with
  | EmptyString => true
  | String d rest => negb (Ascii.eqb d c) && without c rest
  end.



(** ** Sample data *)

Module Sample.

Definition args : MapObj :=
  mkMap 100 [(VStr "0", VNum 10%Z); (VStr "1", VStr "bob")] [].

Definition age : Query := Condition 1 testValues (Some "age") (Some "0") (Some args).
Definition name : Query := Condition 2 testValues (Some "name") (Some "1") (Some args).
Definition city : Query := Condition 3 testValues (Some "city") (Some "2") (Some args).

(** A three-leaf AND tree; the map binds the first two arguments only. *)
Definition three : Query := Combination 0 [age; name; city] args.

Definition two : Query := Combination 0 [age; name] args.

Definition nobody : MapObj := mkMap 101 [] [].

(** A leaf and a candidate that both lack what the leaf names. *)
Definition unbound : Query := Condition 4 testValues (Some "age") (Some "0") (Some nobody).
Definition blank : Value := VMap 102 [] [].

(** A candidate whose age is not the 10 that the map binds. *)
Definition alice : Value :=
  VMap 103 [(VStr "age", VNum 11%Z); (VStr "name", VStr "alice")] [].

Definition nested : Value := VObject 104 [("a", VObject 105 [("b", VNum 5%Z)])].

(** The tree [10: AND(1, 11: AND(1, 2), 1)] in the heap, where the leaf 1
    occurs three times, and a leaf 3 outside of it. *)
Definition inner : Query := Combination 11 [age; name] args.
Definition outer : Query := Combination 10 [age; inner; age] args.

Definition store : heap :=
  <[10 := CombinationObj [1; 11; 1] args]>
  (<[11 := CombinationObj [1; 2] args]>
  (<[1 := ConditionObj testValues (Some "age") (Some "0") (Some args)]>
  (<[2 := ConditionObj testValues (Some "name") (Some "1") (Some args)]>
  (<[3 := ConditionObj testValues (Some "city") (Some "2") (Some args)]> ∅)))).

End Sample.

(** * Properties *)

(** ** Induction on trees *)

(** The induction principle that goes through the list of children. *)
Lemma Query_tree_ind (P : Query -> Prop) :
  (forall l cmp f a m, P (Condition l cmp f a m)) ->
  (forall l children m, Forall P children -> P (Combination l children m)) ->
  forall q, P q.
Proof.
  intros Hleaf Hnode.
  fix IH 1.
  intros [l cmp f a m | l children m].
  - apply Hleaf.
  - apply Hnode.
    induction children as [| c cs IHcs]; constructor.
    + apply IH.
    + exact IHcs.
Qed.

(** ** The loop of a combination *)

Section ChildrenLoopFacts.
Context {A : Type} (matches : A -> bool).

Lemma testChildren_all (result : bool) (children : list A) :
  Forall (fun c => matches c = true) children ->
  testChildren matches result children
  = (match children with [] => result | _ :: _ => true end, children).
Proof.
  intros Hall. revert result.
  induction Hall as [| c cs Hc _ IH]; intros result; simpl.
  - reflexivity.
  - rewrite Hc, IH. destruct cs; reflexivity.
Qed.

Lemma testChildren_first_failure (result : bool) (pre post : list A) (c : A) :
  Forall (fun c => matches c = true) pre ->
  matches c = false ->
  testChildren matches result (pre ++ c :: post) = (false, pre ++ [c]).
Proof.
  intros Hpre Hc. revert result.
  induction Hpre as [| p ps Hp _ IH]; intros result; simpl.
  - rewrite Hc. reflexivity.
  - rewrite Hp, IH. reflexivity.
Qed.

(** Either every child matches, or there is a first one that does not. *)
Lemma children_split (children : list A) :
  Forall (fun c => matches c = true) children
  \/ exists pre c post,
       children = pre ++ c :: post
       /\ Forall (fun c => matches c = true) pre
       /\ matches c = false.
Proof.
  induction children as [| c cs IH].
  - left. constructor.
  - destruct (matches c) eqn:Hc.
    + destruct IH as [Hall | (pre & d & post & -> & Hpre & Hd)].
      * left. constructor; assumption.
      * right. exists (c :: pre), d, post. repeat split; try assumption.
        constructor; assumption.
    + right. exists [], c, cs. repeat split; try assumption. constructor.
Qed.
End ChildrenLoopFacts.

(** C1. [CombinationBase.testWithArgMap] runs the loop from
    [result = false]: with no child it answers [false]; it answers [true]
    exactly when there is a child and every child matches; at the first
    child that does not match it answers [false] having called the tests of
    the children up to that one and of no later one; and when every child
    matches it has called them all, in order. *)
Theorem testWithArgMap_combination
    (self : loc) (children : list Query) (m : MapObj) (t : Value) (argMap : option MapObj) :
  let matches := fun child => testWithArgMap child t argMap in
  let run := testChildren matches false children in
  testWithArgMap (Combination self children m) t argMap = fst run
  /\ testWithArgMap (Combination self [] m) t argMap = false
  /\ (fst run = true <->
      children <> [] /\ Forall (fun c => matches c = true) children)
  /\ (forall pre c post,
        children = pre ++ c :: post ->
        Forall (fun c => matches c = true) pre ->
        matches c = false ->
        fst run = false /\ snd run = pre ++ [c])
  /\ (Forall (fun c => matches c = true) children -> snd run = children).
Proof.
  intros matches run. subst run.
  split; [reflexivity |]. split; [reflexivity |]. split; [| split].
  - split.
    + intros Htrue.
      destruct (children_split matches children)
        as [Hall | (pre & c & post & Heq & Hpre & Hc)].
      * split; [| exact Hall].
        intros ->. simpl in Htrue. discriminate.
      * rewrite Heq, (testChildren_first_failure matches) in Htrue by assumption.
        discriminate.
    + intros [Hne Hall].
      rewrite (testChildren_all matches) by assumption.
      destruct children; [contradiction | reflexivity].
  - intros pre c post -> Hpre Hc.
    rewrite (testChildren_first_failure matches) by assumption.
    split; reflexivity.
  - intros Hall. rewrite (testChildren_all matches) by assumption. reflexivity.
Qed.

Lemma testWithArgMap_combination_witness :
  testWithArgMap Sample.two Sample.alice (Some Sample.args) = false
  /\ snd (testChildren (fun child => testWithArgMap child Sample.alice (Some Sample.args))
                       false [Sample.age; Sample.name])
     = [Sample.age].
Proof.
  destruct (testWithArgMap_combination 0 [Sample.age; Sample.name] Sample.args
              Sample.alice (Some Sample.args)) as (Hfst & _ & _ & Hfail & _).
  destruct (Hfail [] Sample.age [Sample.name]) as [Hres Hcalled].
  - reflexivity.
  - constructor.
  - reflexivity.
  - split.
    + unfold Sample.two. rewrite Hfst. exact Hres.
    + exact Hcalled.
Defined.

(** C2. For a leaf and for a combination alike, [test(t)] is
    [testWithArgMap(t, m)] for [m] the argument map the node stores. *)
Theorem test_is_testWithArgMap_stored (q : Query) (t : Value) :
  test q t = testWithArgMap q t (stored_argMap q).
Proof.
  destruct q as [l cmp f a m | l children m]; reflexivity.
Qed.

(** ** [fetchNestedValue] and the caller's path *)

Lemma fetchNestedValue_walk_path (keys : list string) :
  forall (obj fallback : Value),
  exists k,
    snd (fetchNestedValue_walk obj keys fallback) = drop k keys
    /\ k <= length keys
    /\ (loose_null obj = true -> k = 0)
    /\ (loose_null obj = false -> keys <> [] -> 1 <= k).
Proof.
  induction keys as [| key rest IH]; intros obj fallback.
  - exists 0. simpl. destruct (loose_null obj); repeat split; auto; congruence.
  - simpl. destruct (loose_null obj) eqn:Hnull.
    + exists 0. repeat split; auto with lia; congruence.
    + assert (Hone : exists k,
                 rest = drop k (key :: rest) /\ k <= length (key :: rest)
                 /\ (false = true -> k = 0)
                 /\ (false = false -> key :: rest <> [] -> 1 <= k)).
      { exists 1. simpl. repeat split; auto with lia; congruence. }
      destruct (getProperty obj key) eqn:Hval; try exact Hone.
      all: destruct rest as [| key' rest']; try exact Hone.
      all: match goal with
           | |- context [fetchNestedValue_walk ?v _ _] =>
               destruct (IH v fallback) as (k & Hk & Hle & _ & Hpos)
           end.
      all: exists (S k); split; [exact Hk |].
      all: split; [simpl in *; lia |].
      all: split; [discriminate | intros _ _; lia].
Qed.

(** C5, as the code has it.  A caller-owned path array is consumed: the
    call leaves it as the original with its first [k] keys removed, where
    [k] is 0 when the root is [null] or [undefined], and at least 1 when
    the root is not and the array is not empty.  A path given as a string
    is not changed. *)
Theorem fetchNestedValue_consumes_path (obj : Value) (keys : list string) (fallback : Value) :
  (exists k,
     snd (fetchNestedValue obj (PathArray keys) fallback) = PathArray (drop k keys)
     /\ k <= length keys
     /\ (loose_null obj = true -> k = 0)
     /\ (loose_null obj = false -> keys <> [] -> 1 <= k))
  /\ (forall s, snd (fetchNestedValue obj (PathString s) fallback) = PathString s).
Proof.
  split; [| reflexivity].
  destruct (fetchNestedValue_walk_path keys obj (default_null fallback))
    as (k & Hk & Hrest).
  exists k. split; [| exact Hrest].
  unfold fetchNestedValue.
  destruct (fetchNestedValue_walk obj keys (default_null fallback)) as [v keys'].
  simpl in *. congruence.
Qed.

Lemma fetchNestedValue_consumes_path_witness :
  exists k,
    snd (fetchNestedValue Sample.nested (PathArray ["a"; "b"]) (VNum (-1)))
    = PathArray (drop k ["a"; "b"])
    /\ 1 <= k.
Proof.
  destruct (fetchNestedValue_consumes_path Sample.nested ["a"; "b"] (VNum (-1)))
    as [(k & Hk & _ & _ & Hpos) _].
  exists k. split; [exact Hk |].
  apply Hpos; [reflexivity | discriminate].
Defined.

(** C5, as stated, fails: a call on [{a: {b: 5}}] with the array
    [["a", "b"]] returns 5 and leaves the array empty. *)
Lemma fetchNestedValue_mutates_path :
  fetchNestedValue Sample.nested (PathArray ["a"; "b"]) (VNum (-1))
  = (VNum 5, PathArray [])
  /\ ~ (forall obj keys fallback,
          snd (fetchNestedValue obj (PathArray keys) fallback) = PathArray keys).
Proof.
  split; [reflexivity |].
  intros H. specialize (H Sample.nested ["a"; "b"] (VNum (-1))).
  discriminate H.
Qed.

(** ** [queryArgumentsArray] *)




(** C6, at the tree of the claim.  The map binds "0" to 10 and "1" to
    "bob" and has no entry "2": [Map.get] gives [undefined] for the third
    leaf, which [value !== null] lets through, so the array has three
    elements. *)
Theorem queryArgumentsArray_unset_argument :
  defaultArgumentValue Sample.city = VUndefined
  /\ queryArgumentsArray Sample.three = [VNum 10; VStr "bob"; VUndefined].
Proof.
  split; reflexivity.
Qed.

(** ** The comparison of the base class *)

Lemma testValues_strict_eq (fieldValue argValue : Value) :
  testValues fieldValue argValue = strict_eq argValue fieldValue.
Proof.
  destruct argValue, fieldValue; reflexivity.
Qed.

(** [fetchNestedValue] reads [argMap[key]], a member of the [Map] object:
    of the entries of the map, their number alone, which is the member
    [size], has a part in the argument value. *)
Lemma getArgumentValue_reads_members (r r' : nat) (entries entries' : list (Value * Value))
    (props : list (string * Value)) (argName : option string) :
  length entries = length entries' ->
  getArgumentValue (Some (mkMap r entries props)) argName
  = getArgumentValue (Some (mkMap r' entries' props)) argName.
Proof.
  intros Hsize.
  destruct argName as [name |]; [| reflexivity].
  unfold getArgumentValue, fetchNestedValue.
  destruct (truthy_str name); [| reflexivity].
  destruct (split "." name) as [| key rest]; [reflexivity |].
  cbn [fetchNestedValue_walk of_map loose_null map_ref map_entries map_props getProperty].
  rewrite Hsize. reflexivity.
Qed.

(** C7, at a candidate map without the field and an argument that resolves
    to [null].  The field value is the [undefined] of [Map.get], the
    argument value is [null], and [undefined === null] is false: the leaf
    does not match. *)
Theorem testValues_absent_field_null_argument :
  getFieldValue Sample.blank (Some "age") = VUndefined
  /\ getArgumentValue (Some Sample.nobody) (Some "0") = VNull
  /\ testValues VUndefined VNull = false
  /\ test Sample.unbound Sample.blank = false.
Proof.
  repeat split; reflexivity.
Qed.

(** ** [keyValuesMap] *)

(** A leaf never fills the map it is handed: it allocates a map, fills
    that one, and returns it. *)
Lemma keyValuesMap_condition (l : loc) (cmp : Value -> Value -> bool)
    (f a : option string) (m : option MapObj) (acc : option nat) (h : MapHeap) :
  exists kv,
    keyValuesMap (Condition l cmp f a m) acc h = (Some (length h), h ++ [kv])
    /\ (truthy_ostr f = false -> kv = [])
    /\ (forall key, f = Some key -> truthy_str key = true ->
          exists val, kv = [(key, [val])]).
Proof.
  cbn [keyValuesMap]. unfold _keyValuesMap, new_Map.
  destruct f as [key |]; cbn [truthy_ostr].
  - destruct (truthy_str key) eqn:Hkey.
    + eexists. split.
      * rewrite alter_app_r_alt by lia.
        rewrite Nat.sub_diag. reflexivity.
      * split; [discriminate |].
        intros key' [= <-] _. eexists. reflexivity.
    + exists []. repeat split. intros key' [= <-]. congruence.
  - exists []. repeat split. discriminate.
Qed.

(** C4, at a combination of two leaves.  Called with the accumulator at
    reference 0, [CombinationBase.keyValuesMap] returns reference 2, the
    map that the last leaf allocated: it holds the entry of "name" alone,
    the entry of "age" is in a map (reference 1) that is dropped, and the
    accumulator is still empty. *)
Theorem keyValuesMap_combination_loses_entries :
  keyValuesMap Sample.two (Some 0) [[]]
  = (Some 2, [ []; [("age", [VNum 10])]; [("name", [VStr "bob"])] ]).
Proof.
  reflexivity.
Qed.

(** Whatever the children before it, a leaf in last position decides the
    map that a combination returns. *)
Lemma keyValuesMap_last_leaf (l l' : loc) (children : list Query) (m : MapObj)
    (cmp : Value -> Value -> bool) (f a : option string) (m' : option MapObj)
    (acc : option nat) (h : MapHeap) :
  keyValuesMap (Combination l (children ++ [Condition l' cmp f a m']) m) acc h
  = keyValuesMap (Condition l' cmp f a m') None
      (snd (keyValuesMap (Combination l children m) acc h)).
Proof.
  cbn [keyValuesMap]. rewrite fold_left_app. reflexivity.
Qed.

(** ** The constructor of [CombinationBase] *)

(** C8, as the code has it.  The constructor succeeds when the first
    argument is an array and the second a [Map], with the array as the
    children; otherwise it succeeds when the third argument is a [Map],
    with as children those of the first two arguments that are nodes, in
    order, the others being left out; otherwise it throws. *)
Theorem new_CombinationBase_accepts (self : loc) (arg1 arg2 arg3 : Arg) :
  (is_array arg1 && is_map arg2 = true ->
     exists elems m,
       arg1 = AArray elems /\ arg2 = AValue (of_map m)
       /\ new_CombinationBase self arg1 arg2 arg3 = Return (Combination self elems m))
  /\ (is_array arg1 && is_map arg2 = false -> is_map arg3 = true ->
     exists m,
       arg3 = AValue (of_map m)
       /\ new_CombinationBase self arg1 arg2 arg3
          = Return (Combination self (as_child arg1 ++ as_child arg2) m))
  /\ (is_array arg1 && is_map arg2 = false -> is_map arg3 = false ->
     new_CombinationBase self arg1 arg2 arg3
     = Throw (Error "Invalid arguments types for CombinationBase constructor")).
Proof.
  split; [| split].
  - intros [Harr Hmap]%andb_prop.
    destruct arg1 as [| elems |]; try discriminate.
    destruct arg2 as [| | [| | | | | | r entries props]]; try discriminate.
    exists elems, (mkMap r entries props). repeat split.
  - intros Hnot Hmap.
    destruct arg3 as [| | [| | | | | | r entries props]]; try discriminate.
    exists (mkMap r entries props). split; [reflexivity |].
    destruct arg1 as [| elems |]; try reflexivity.
    destruct arg2 as [| | [| | | | | |]]; try reflexivity.
    discriminate.
  - intros Hnot Hmap.
    destruct arg1 as [| elems |]; destruct arg2 as [| | [| | | | | |]];
      try discriminate;
      destruct arg3 as [| | [| | | | | |]]; try discriminate; reflexivity.
Qed.

Lemma new_CombinationBase_accepts_witness :
  new_CombinationBase 9 (AQuery Sample.age) (AQuery Sample.name) (AValue (of_map Sample.args))
  = Return (Combination 9 [Sample.age; Sample.name] Sample.args)
  /\ new_CombinationBase 9 (AArray [Sample.age]) (AValue (of_map Sample.args)) (AValue VUndefined)
     = Return (Combination 9 [Sample.age] Sample.args)
  /\ new_CombinationBase 9 (AQuery Sample.age) (AQuery Sample.name) (AValue VUndefined)
     = Throw (Error "Invalid arguments types for CombinationBase constructor").
Proof.
  split; [| split].
  - destruct (new_CombinationBase_accepts 9 (AQuery Sample.age) (AQuery Sample.name)
                (AValue (of_map Sample.args))) as (_ & H & _).
    destruct H as ([r entries props] & Hm & Hres); [reflexivity | reflexivity |].
    cbv [of_map Sample.args map_ref map_entries map_props] in Hm.
    injection Hm as <- <- <-. exact Hres.
  - destruct (new_CombinationBase_accepts 9 (AArray [Sample.age])
                (AValue (of_map Sample.args)) (AValue VUndefined)) as (H & _ & _).
    destruct H as (elems & [r entries props] & He & Hm & Hres); [reflexivity |].
    cbv [of_map Sample.args map_ref map_entries map_props] in Hm.
    injection He as <-. injection Hm as <- <- <-. exact Hres.
  - destruct (new_CombinationBase_accepts 9 (AQuery Sample.age) (AQuery Sample.name)
                (AValue VUndefined)) as (_ & _ & H).
    apply H; reflexivity.
Defined.

(** C8, as stated, fails: with [null] in first position, a node in second
    and a [Map] in third, the constructor does not throw; it builds a
    combination of one child.  So success is not confined to the two
    shapes (array, map) and (node, node, map). *)
Lemma new_CombinationBase_accepts_non_query :
  is_query (AValue VNull) = false
  /\ new_CombinationBase 9 (AValue VNull) (AQuery Sample.age) (AValue (of_map Sample.args))
     = Return (Combination 9 [Sample.age] Sample.args)
  /\ ~ (forall self arg1 arg2 arg3,
          (exists q, new_CombinationBase self arg1 arg2 arg3 = Return q) ->
          is_array arg1 && is_map arg2 = true
          \/ is_query arg1 && is_query arg2 && is_map arg3 = true).
Proof.
  split; [reflexivity |]. split; [reflexivity |].
  intros H.
  destruct (H 9 (AValue VNull) (AQuery Sample.age) (AValue (of_map Sample.args)))
    as [Hshape | Hshape]; [eexists; reflexivity | discriminate | discriminate].
Qed.

(** ** The type registry *)

Section Registry.
Import QueryTypeHelper.

Lemma initialized_tables :
  initialized = mkRegistry (Some name_table) (Some id_table).
Proof. vm_compute. reflexivity. Qed.

(** The first lookup builds the tables, the later ones keep them. *)
Lemma initializeTypeMaps_reachable (r : Registry) :
  reachable r -> initializeTypeMaps r = initialized.
Proof.
  intros [-> | ->]; [reflexivity |].
  rewrite initialized_tables. reflexivity.
Qed.

Lemma name_table_lookup (k : string) (q : QueryType) :
  name_table !! k = Some q <-> k = canonicalName q.
Proof.
  split.
  - intros H. apply elem_of_list_to_map_2 in H.
    unfold members in H.
    repeat (apply elem_of_cons in H; destruct H as [[= -> ->] | H]; [reflexivity |]).
    inversion H.
  - intros ->. destruct q; reflexivity.
Qed.

Lemma id_table_lookup (k : Z) (q : QueryType) :
  id_table !! k = Some q <-> getValue q = k.
Proof.
  split.
  - intros H. apply elem_of_list_to_map_2 in H.
    cbn in H.
    repeat (apply elem_of_cons in H; destruct H as [[= -> ->] | H]; [reflexivity |]).
    inversion H.
  - intros <-. destruct q; reflexivity.
Qed.

Lemma fromID_reachable (id : Z) (r : Registry) :
  reachable r -> fromID id r = (id_table !! id, initialized).
Proof.
  intros Hr. unfold fromID.
  rewrite (initializeTypeMaps_reachable r Hr), initialized_tables. reflexivity.
Qed.

Lemma fromName_reachable (name : string) (r : Registry) :
  reachable r -> fromName name r = (name_table !! toUpperCase name, initialized).
Proof.
  intros Hr. unfold fromName.
  rewrite (initializeTypeMaps_reachable r Hr), initialized_tables. reflexivity.
Qed.

(** *** Case of letters *)

Lemma upper_lower_ascii (c : ascii) : upper_ascii (lower_ascii c) = upper_ascii c.
Proof. destruct c as [[] [] [] [] [] [] [] []]; reflexivity. Qed.

Lemma lower_upper_ascii (c : ascii) : lower_ascii (upper_ascii c) = lower_ascii c.
Proof. destruct c as [[] [] [] [] [] [] [] []]; reflexivity. Qed.

Lemma toUpperCase_toLowerCase (s : string) :
  toUpperCase (toLowerCase s) = toUpperCase s.
Proof.
  induction s as [| c s IH]; [reflexivity |].
  cbn. rewrite upper_lower_ascii. f_equal. exact IH.
Qed.

Lemma toLowerCase_toUpperCase (s : string) :
  toLowerCase (toUpperCase s) = toLowerCase s.
Proof.
  induction s as [| c s IH]; [reflexivity |].
  cbn. rewrite lower_upper_ascii. f_equal. exact IH.
Qed.

Lemma canonicalName_upper (q : QueryType) :
  toUpperCase (canonicalName q) = canonicalName q.
Proof. destruct q; reflexivity. Qed.

(** Matching the upper-cased name against the canonical names is
    matching whatever the case. *)
Lemma same_name_any_case (s : string) (q : QueryType) :
  toUpperCase s = canonicalName q
  <-> toLowerCase s = toLowerCase (canonicalName q).
Proof.
  split; intros H.
  - rewrite <- H, toLowerCase_toUpperCase. reflexivity.
  - rewrite <- toUpperCase_toLowerCase, H, toUpperCase_toLowerCase.
    apply canonicalName_upper.
Qed.

Lemma checked_found (type : Value) (q : QueryType) (r : Registry) :
  checked type (Some q) r = (Return (Some q), r).
Proof. reflexivity. Qed.

End Registry.




(** C10. On [null], from every state of the registry, the call returns
    [null]; it throws nothing and leaves the registry as it was. *)
Theorem fromTypeObject_null (r : QueryTypeHelper.Registry) :
  QueryTypeHelper.fromTypeObject VNull r = (Return None, r).
Proof.
  reflexivity.
Qed.

(** ** [replaceQuery] *)

Section ReplaceQuery.
Variables original replacement : loc.

Lemma spliced_original : spliced original replacement original = replacement.
Proof. unfold spliced. rewrite decide_True by reflexivity. reflexivity. Qed.

Lemma spliced_other (c : loc) : c <> original -> spliced original replacement c = c.
Proof. intros Hc. unfold spliced. rewrite decide_False by exact Hc. reflexivity. Qed.

Lemma walked_original (q : Query) : self_of q = original -> walked original q = [].
Proof.
  destruct q as [l cmp f a m | l children m]; simpl; [reflexivity |].
  intros ->. rewrite decide_True by reflexivity. reflexivity.
Qed.

Lemma elem_of_flat_map_walked (l : loc) (qs : list Query) :
  l ∈ flat_map (walked original) qs <-> exists q, q ∈ qs /\ l ∈ walked original q.
Proof.
  rewrite list_elem_of_In, in_flat_map.
  split; intros (q & Hq & Hl); exists q;
    split; apply list_elem_of_In; assumption.
Qed.

Lemma repr_repr_upto (h : heap) (q : Query) :
  repr h q -> repr_upto h original q.
Proof.
  induction q as [l cmp f a m | l children m IH] using Query_tree_ind;
    intros Hrepr; inversion Hrepr; subst.
  - apply upto_condition. assumption.
  - apply upto_combination; [assumption |].
    rewrite Forall_forall in *. auto.
Qed.

(** What a rewrite walks through are combinations. *)
Lemma walked_is_combination (h : heap) (q : Query) :
  repr_upto h original q ->
  forall l, l ∈ walked original q -> exists children m, h !! l = Some (CombinationObj children m).
Proof.
  induction q as [l0 cmp f a m | l0 children m IH] using Query_tree_ind;
    intros Hrepr l Hl.
  - inversion Hl.
  - simpl in Hl. destruct (decide (l0 = original)) as [-> | Hne]; [inversion Hl |].
    inversion Hrepr as [q Hself | | l1 cs m1 Hobj Hchildren].
    + simpl in Hself. contradiction.
    + apply elem_of_cons in Hl as [-> | Hl]; [eauto |].
      apply elem_of_flat_map_walked in Hl as (c & Hc & Hl).
      rewrite Forall_forall in IH, Hchildren.
      eapply IH; eauto.
Qed.

(** A heap that agrees on the leaves and on what is walked holds the
    same tree. *)
Lemma repr_upto_stable (h h' : heap) (q : Query) :
  repr_upto h original q ->
  (forall l, l ∈ walked original q -> h' !! l = h !! l) ->
  (forall l cmp f a m, h !! l = Some (ConditionObj cmp f a m) -> h' !! l = h !! l) ->
  repr_upto h' original q.
Proof.
  intros Hrepr Hwalk Hleaf. revert Hrepr Hwalk.
  induction q as [l0 cmp f a m | l0 children m IH] using Query_tree_ind;
    intros Hrepr Hwalk.
  - inversion Hrepr as [q Hself | l1 c1 f1 a1 m1 Hobj |].
    + apply upto_original. assumption.
    + apply upto_condition. rewrite (Hleaf _ _ _ _ _ Hobj). assumption.
  - inversion Hrepr as [q Hself | | l1 cs m1 Hobj Hchildren].
    + apply upto_original. assumption.
    + destruct (decide (l0 = original)) as [Heq | Hne];
        [apply upto_original; assumption |].
      simpl in Hwalk. rewrite decide_False in Hwalk by assumption.
      apply upto_combination.
      * rewrite Hwalk by (apply elem_of_cons; auto). assumption.
      * rewrite Forall_forall in *. intros c Hc.
        apply IH; [assumption | auto |].
        intros l Hl. apply Hwalk, elem_of_cons. right.
        apply elem_of_flat_map_walked. eauto.
Qed.

(** The loop, from slot [length done] on, [done] being the children
    already visited and [todo] the others; [h0] is the heap at the
    entry of the loop and [hi] the heap now. *)
Lemma replaceLoop_rewrites (l : loc) (m : MapObj) (h0 : heap) (todo : list Query) :
  l <> original ->
  Forall (rewrites original replacement) todo ->
  forall (done : list Query) (hi : heap),
    NoDup (l :: flat_map (walked original) (done ++ todo)) ->
    Forall (repr_upto h0 original) todo ->
    h0 !! l = Some (CombinationObj (map self_of (done ++ todo)) m) ->
    hi !! l = Some (CombinationObj
                      (map (spliced original replacement) (map self_of done)
                       ++ map self_of todo) m) ->
    (forall l', l' ∈ flat_map (walked original) done ->
       exists children m',
         h0 !! l' = Some (CombinationObj children m')
         /\ hi !! l' = Some (CombinationObj (map (spliced original replacement) children) m')) ->
    (forall l', l' <> l -> l' ∉ flat_map (walked original) done -> hi !! l' = h0 !! l') ->
    exists n, forall fuel, n <= fuel ->
      exists h',
        replaceLoop fuel hi l (length done) original replacement = Some h'
        /\ rewritten original replacement (l :: flat_map (walked original) (done ++ todo)) h0 h'.
Proof.
  intros Hl Hrec.
  induction Hrec as [| c todo Hc _ IH];
    intros done hi Hnodup Hrepr Hl0 Hli Hdone Hframe.
  - (* the loop is over *)
    exists 1. intros [| fuel] Hfuel; [lia |].
    exists hi. split.
    + simpl. rewrite Hli.
      rewrite lookup_ge_None_2; [reflexivity |].
      rewrite length_app, !length_map. simpl. lia.
    + rewrite app_nil_r in *. split.
      * intros l' [-> | Hl']%elem_of_cons.
        -- exists (map self_of done), m. split; [assumption |].
           exact Hli.
        -- auto.
      * intros l' Hl'. apply not_elem_of_cons in Hl' as [Hne Hl'].
        auto.
  - (* the slot holds [self_of c] *)
    assert (Hslot : (map (spliced original replacement) (map self_of done)
                     ++ map self_of (c :: todo))
                      !! length done = Some (self_of c)).
    { rewrite lookup_app_r by (rewrite !length_map; lia).
      rewrite !length_map, Nat.sub_diag. reflexivity. }
    assert (Hassoc : (done ++ [c]) ++ todo = done ++ c :: todo).
    { rewrite <- app_assoc. reflexivity. }
    assert (Hlen : length (done ++ [c]) = S (length done)).
    { rewrite length_app. simpl. lia. }
    assert (Hnodup' := Hnodup).
    apply NoDup_cons in Hnodup' as [Hl_notin Hnodup'].
    rewrite flat_map_app in Hnodup', Hl_notin. simpl in Hnodup', Hl_notin.
    apply NoDup_app in Hnodup' as (Hnd_done & Hdisj & Hnodup').
    apply NoDup_app in Hnodup' as (Hnd_c & Hdisj_c & Hnd_todo).
    apply Forall_cons in Hrepr as [Hrepr_c Hrepr].
    destruct (decide (self_of c = original)) as [Hc_orig | Hc_other].
    + (* spliced original replacement the slot *)
      set (hi' := <[l := CombinationObj
                           (<[length done := replacement]>
                              (map (spliced original replacement) (map self_of done)
                               ++ map self_of (c :: todo)))
                           m]> hi).
      destruct (IH (done ++ [c]) hi') as [n Hn].
      * rewrite Hassoc. assumption.
      * assumption.
      * rewrite Hassoc. assumption.
      * unfold hi'. rewrite lookup_insert_eq. do 2 f_equal.
        rewrite insert_app_r_alt by (rewrite !length_map; lia).
        rewrite !length_map, Nat.sub_diag. simpl.
        rewrite !map_app, <- app_assoc. simpl.
        rewrite Hc_orig, spliced_original. reflexivity.
      * intros l' Hl'. rewrite flat_map_app in Hl'. simpl in Hl'.
        rewrite (walked_original c Hc_orig), !app_nil_r in Hl'.
        unfold hi'. rewrite lookup_insert_ne.
        -- auto.
        -- intros ->. apply Hl_notin, elem_of_app. auto.
      * intros l' Hne Hl'. unfold hi'. rewrite lookup_insert_ne by auto.
        apply Hframe; [assumption |].
        intros Hin. apply Hl'. rewrite flat_map_app. apply elem_of_app. auto.
      * exists (S n). intros [| fuel] Hfuel; [lia |].
        destruct (Hn fuel) as (h' & Hrun & Hrew); [lia |].
        exists h'. split.
        -- simpl. rewrite Hli, Hslot.
           rewrite decide_True by assumption.
           rewrite Hlen in Hrun. exact Hrun.
        -- rewrite Hassoc in Hrew. exact Hrew.
    + (* ask the child *)
      assert (Hagree : forall l', l' ∈ walked original c -> hi !! l' = h0 !! l').
      { intros l' Hl'. apply Hframe.
        - intros ->. apply Hl_notin, elem_of_app. right. apply elem_of_app. auto.
        - intros Hin. apply (Hdisj l' Hin), elem_of_app. auto. }
      assert (Hrepr_hi : repr_upto hi original c).
      { apply (repr_upto_stable h0); [assumption | assumption |].
        intros l' cmp f a m' Hobj. apply Hframe.
        - intros ->. rewrite Hl0 in Hobj. discriminate.
        - intros Hin. destruct (Hdone l' Hin) as (cs & m'' & Hcomb & _).
          rewrite Hcomb in Hobj. discriminate. }
      destruct (Hc hi Hrepr_hi Hnd_c) as [nc Hnc].
      assert (Hstep : forall hc,
                rewritten original replacement (walked original c) hi hc ->
                exists n, forall fuel, n <= fuel ->
                  exists h',
                    replaceLoop fuel hc l (S (length done)) original replacement = Some h'
                    /\ rewritten original replacement
                         (l :: flat_map (walked original) (done ++ c :: todo)) h0 h').
      { intros hc [Hin_c Hout_c].
        destruct (IH (done ++ [c]) hc) as [n Hn].
        - rewrite Hassoc. assumption.
        - assumption.
        - rewrite Hassoc. assumption.
        - rewrite Hout_c.
          + rewrite Hli. do 2 f_equal.
            rewrite !map_app, <- app_assoc. simpl.
            rewrite (spliced_other _ Hc_other). reflexivity.
          + intros Hin. apply Hl_notin, elem_of_app. right. apply elem_of_app. auto.
        - intros l' Hl'. rewrite flat_map_app in Hl'. simpl in Hl'.
          rewrite app_nil_r in Hl'. apply elem_of_app in Hl' as [Hl' | Hl'].
          + rewrite Hout_c by (intros Hin; apply (Hdisj l' Hl'), elem_of_app; auto).
            auto.
          + destruct (Hin_c l' Hl') as (cs & m' & Hhi & Hhc).
            exists cs, m'. split; [| assumption].
            rewrite <- (Hagree l' Hl'). assumption.
        - intros l' Hne Hl'. rewrite flat_map_app in Hl'. simpl in Hl'.
          rewrite app_nil_r in Hl'. apply not_elem_of_app in Hl' as [Hl'1 Hl'2].
          rewrite Hout_c by assumption. auto.
        - exists n. intros fuel Hfuel.
          destruct (Hn fuel Hfuel) as (h' & Hrun & Hrew).
          exists h'. rewrite Hlen in Hrun. rewrite Hassoc in Hrew. auto. }
      (* the fuel of the loop depends on the heap the child leaves: take
         the heap from a run of the child with fuel [nc] *)
      destruct (Hnc nc) as (hc & Hrun_c & Hrew_c); [lia |].
      destruct (Hstep hc Hrew_c) as [n Hn].
      exists (S (max nc n)). intros [| fuel] Hfuel; [lia |].
      destruct (Hnc fuel) as (hc' & Hrun_c' & Hrew_c'); [lia |].
      assert (hc' = hc) as ->.
      { apply map_eq. intros l'.
        destruct Hrew_c as [Hin Hout], Hrew_c' as [Hin' Hout'].
        destruct (decide (l' ∈ walked original c)) as [Hl' | Hl'].
        - destruct (Hin l' Hl') as (cs & m' & Hhi & ->).
          destruct (Hin' l' Hl') as (cs' & m'' & Hhi' & ->).
          congruence.
        - rewrite Hout, Hout' by assumption. reflexivity. }
      destruct (Hn fuel) as (h' & Hrun & Hrew); [lia |].
      exists h'. split; [| exact Hrew].
      simpl. rewrite Hli, Hslot.
      rewrite decide_False by assumption.
      rewrite Hrun_c'. exact Hrun.
Qed.

(** Every tree is rewritten. *)
Lemma replaceQuery_rewrites (q : Query) : rewrites original replacement q.
Proof.
  induction q as [l cmp f a m | l children m IH] using Query_tree_ind;
    intros h Hrepr Hnodup.
  - exists 1. intros [| fuel] Hfuel; [lia |].
    exists h. split; [| split; [intros l' Hl'; inversion Hl' | reflexivity]].
    simpl. unfold spliced. destruct (decide (l = original)); [reflexivity |].
    inversion Hrepr as [q Hself | l1 c1 f1 a1 m1 Hobj |].
    + simpl in Hself. contradiction.
    + rewrite Hobj. reflexivity.
  - destruct (decide (l = original)) as [Heq | Hne].
    + exists 1. intros [| fuel] Hfuel; [lia |].
      exists h. rewrite (walked_original (Combination l children m) Heq).
      split; [| split; [intros l' Hl'; inversion Hl' | reflexivity]].
      simpl. unfold spliced. rewrite !decide_True by assumption. reflexivity.
    + inversion Hrepr as [q Hself | | l1 cs m1 Hobj Hchildren];
        [simpl in Hself; contradiction |].
      simpl in Hnodup |- *. rewrite decide_False in Hnodup |- * by assumption.
      destruct (replaceLoop_rewrites l m h children Hne IH [] h) as [n Hn];
        try assumption.
      * intros l' Hl'. inversion Hl'.
      * reflexivity.
      * exists (S n). intros [| fuel] Hfuel; [lia |].
        destruct (Hn fuel) as (h' & Hrun & Hrew); [lia |].
        exists h'. split; [| exact Hrew].
        simpl. rewrite decide_False by assumption.
        rewrite Hobj. simpl in Hrun. rewrite Hrun.
        rewrite spliced_other by assumption. reflexivity.
Qed.

End ReplaceQuery.

(** The outcome of a run, seen at the two combinations of the sample. *)
Lemma replaceQuery_sample_run :
  match replaceQuery 7 Sample.store 10 1 3 with
  | Some (ret, h') => Some (ret, h' !! 10, h' !! 11)
  | None => None
  end
  = Some (10, Some (CombinationObj [3; 11; 3] Sample.args),
              Some (CombinationObj [3; 2] Sample.args)).
Proof.
  vm_compute. reflexivity.
Qed.

(** With too little fuel the run does not end. *)
Lemma replaceQuery_sample_starved :
  replaceQuery 6 Sample.store 10 1 3 = None.
Proof.
  vm_compute. reflexivity.
Qed.

(** C3. Let the heap hold the tree [q], the combinations that the rewrite
    walks through being distinct objects.  Then [replaceQuery] ends, and:
    it returns [replacement] when the receiver is [original], and the
    receiver otherwise; in the first case the heap is not touched; every
    combination walked through has each of its slots that held [original]
    now hold [replacement], the other slots and every other object being as
    they were; so no such combination refers to [original] any more, when
    [replacement] is another node. *)
Theorem replaceQuery_replaces_every_occurrence
    (h : heap) (q : Query) (original replacement : loc) :
  repr h q ->
  NoDup (walked original q) ->
  exists n, forall fuel, n <= fuel ->
    exists h',
      replaceQuery fuel h (self_of q) original replacement
      = Some (if decide (self_of q = original) then replacement else self_of q, h')
      /\ (self_of q = original -> h' = h)
      /\ (forall l, l ∈ walked original q ->
            exists children m,
              h !! l = Some (CombinationObj children m)
              /\ h' !! l = Some (CombinationObj
                                   (map (fun c => if decide (c = original)
                                                  then replacement else c) children) m)
              /\ (replacement <> original ->
                  forall children', h' !! l = Some (CombinationObj children' m) ->
                                    original ∉ children'))
      /\ (forall l, l ∉ walked original q -> h' !! l = h !! l).
Proof.
  intros Hrepr Hnodup.
  destruct (replaceQuery_rewrites original replacement q h
              (repr_repr_upto original h q Hrepr) Hnodup) as [n Hn].
  exists n. intros fuel Hfuel.
  destruct (Hn fuel Hfuel) as (h' & Hrun & Hin & Hout).
  exists h'. split; [exact Hrun |]. split; [| split; [| exact Hout]].
  - intros Hself. apply map_eq. intros l. apply Hout.
    rewrite (walked_original original q Hself). apply not_elem_of_nil.
  - intros l Hl. destruct (Hin l Hl) as (children & m & Hh & Hh').
    exists children, m. split; [exact Hh |]. split; [exact Hh' |].
    intros Hne children' Hh''. rewrite Hh' in Hh''. injection Hh'' as <-.
    intros (c & Hc & _)%list_elem_of_fmap.
    unfold spliced in Hc. destruct (decide (c = original)); congruence.
Qed.

Lemma replaceQuery_replaces_every_occurrence_witness :
  exists n, forall fuel, n <= fuel ->
    exists h',
      replaceQuery fuel Sample.store 10 1 3 = Some (10, h')
      /\ h' !! 10 = Some (CombinationObj [3; 11; 3] Sample.args)
      /\ h' !! 11 = Some (CombinationObj [3; 2] Sample.args)
      /\ h' !! 1 = Sample.store !! 1.
Proof.
  assert (Hrepr : repr Sample.store Sample.outer).
  { apply repr_combination; [reflexivity |].
    repeat constructor. }
  assert (Hnodup : NoDup (walked 1 Sample.outer)).
  { apply (bool_decide_unpack _). vm_compute. exact I. }
  destruct (replaceQuery_replaces_every_occurrence Sample.store Sample.outer 1 3
              Hrepr Hnodup) as [n Hn].
  exists n. intros fuel Hfuel.
  destruct (Hn fuel Hfuel) as (h' & Hrun & _ & Hin & Hout).
  exists h'. split; [exact Hrun |]. split; [| split].
  - destruct (Hin 10) as (children & m & Hh & Hh' & _).
    + apply (bool_decide_unpack _). vm_compute. exact I.
    + vm_compute in Hh. injection Hh as <- <-. exact Hh'.
  - destruct (Hin 11) as (children & m & Hh & Hh' & _).
    + apply (bool_decide_unpack _). vm_compute. exact I.
    + vm_compute in Hh. injection Hh as <- <-. exact Hh'.
  - apply Hout. apply (bool_decide_unpack _). vm_compute. exact I.
Defined.

(** * Further properties *)

(** ** The type registry, lookups *)

(** X1. From every state of the registry, [fromID] finds a type exactly
    when the number is its id: the id of a type leads back to the type, and
    any other number gives [undefined]. *)
Theorem fromID_exact (id : Z) (q : QueryType) (r : QueryTypeHelper.Registry) :
  reachable r ->
  fst (QueryTypeHelper.fromID id r) = Some q <-> QueryTypeHelper.getValue q = id.
Proof.
  intros Hr. rewrite (fromID_reachable id r Hr). simpl.
  apply id_table_lookup.
Qed.

Lemma fromID_exact_witness :
  fst (QueryTypeHelper.fromID 21 QueryTypeHelper.initial) = Some LESS_THAN_OR_EQUALS.
Proof.
  apply (fromID_exact 21 LESS_THAN_OR_EQUALS QueryTypeHelper.initial).
  - left. reflexivity.
  - reflexivity.
Defined.

(** X2. From every state of the registry, [fromName] finds a type exactly
    when the text, one of ASCII characters, is its canonical name,
    whatever the case of the letters. *)
Theorem fromName_exact (name : string) (q : QueryType) (r : QueryTypeHelper.Registry) :
  reachable r ->
  ascii_text name = true ->
  fst (QueryTypeHelper.fromName name r) = Some q
  <-> toLowerCase name = toLowerCase (canonicalName q).
Proof.
  intros Hr _. rewrite (fromName_reachable name r Hr). simpl.
  rewrite name_table_lookup. apply same_name_any_case.
Qed.

Lemma fromName_exact_witness :
  fst (QueryTypeHelper.fromName "Not_Equals" initialized) = Some NOT_EQUALS.
Proof.
  apply (fromName_exact "Not_Equals" NOT_EQUALS initialized).
  - right. reflexivity.
  - reflexivity.
  - reflexivity.
Defined.

Lemma is_digit_upper_ascii (c : ascii) :
  QueryTypeHelper.is_digit (upper_ascii c) = QueryTypeHelper.is_digit c.
Proof. destruct c as [[] [] [] [] [] [] [] []]; reflexivity. Qed.

Lemma all_digits_toUpperCase (s : string) :
  QueryTypeHelper.all_digits (toUpperCase s) = QueryTypeHelper.all_digits s.
Proof.
  induction s as [| c s IH]; [reflexivity |].
  cbn. rewrite is_digit_upper_ascii. f_equal. exact IH.
Qed.

(** X3. The numeric keys of the enum object are no names: a text made of
    digits only, the empty text included, is the name of no type, and
    [fromTypeObject] throws on it although a number of the same digits may
    be an id. *)
Theorem fromName_digits (s : string) (r : QueryTypeHelper.Registry) :
  reachable r ->
  QueryTypeHelper.all_digits s = true ->
  fst (QueryTypeHelper.fromName s r) = None
  /\ fst (QueryTypeHelper.fromTypeObject (VStr s) r)
     = Throw (Error ("Invalid QueryType for: " ++ s)).
Proof.
  intros Hr Hdigits.
  assert (Hnone : name_table !! toUpperCase s = None).
  { destruct (name_table !! toUpperCase s) as [q |] eqn:Hlook; [| reflexivity].
    apply name_table_lookup in Hlook.
    rewrite <- all_digits_toUpperCase, Hlook in Hdigits.
    destruct q; discriminate Hdigits. }
  split.
  - rewrite (fromName_reachable s r Hr). exact Hnone.
  - unfold QueryTypeHelper.fromTypeObject. cbn [QueryTypeHelper.toString].
    rewrite (fromName_reachable s r Hr), Hnone. reflexivity.
Qed.

Lemma fromName_digits_witness :
  fst (QueryTypeHelper.fromID 10 QueryTypeHelper.initial) = Some EQUALS
  /\ fst (QueryTypeHelper.fromName "10" QueryTypeHelper.initial) = None
  /\ fst (QueryTypeHelper.fromTypeObject (VStr "10") QueryTypeHelper.initial)
     = Throw (Error "Invalid QueryType for: 10").
Proof.
  split; [reflexivity |].
  apply (fromName_digits "10" QueryTypeHelper.initial).
  - left. reflexivity.
  - reflexivity.
Defined.



(** X5. Ids and names are interchangeable tokens: for every type, from
    every state of the registry, [fromTypeObject] gives the type back from
    its id, from its canonical name and from its name in lower case; two
    types have different ids. *)
Theorem fromTypeObject_round_trip (q : QueryType) (r : QueryTypeHelper.Registry) :
  reachable r ->
  fst (QueryTypeHelper.fromTypeObject (VNum (QueryTypeHelper.getValue q)) r)
  = Return (Some q)
  /\ fst (QueryTypeHelper.fromTypeObject (VStr (canonicalName q)) r) = Return (Some q)
  /\ fst (QueryTypeHelper.fromTypeObject (VStr (toLowerCase (canonicalName q))) r)
     = Return (Some q)
  /\ (forall q', QueryTypeHelper.getValue q' = QueryTypeHelper.getValue q -> q' = q).
Proof.
  intros Hr.
  assert (Hid : id_table !! QueryTypeHelper.getValue q = Some q)
    by (apply id_table_lookup; reflexivity).
  assert (Hname : forall s, toLowerCase s = toLowerCase (canonicalName q) ->
            fst (QueryTypeHelper.fromTypeObject (VStr s) r) = Return (Some q)).
  { intros s Hs. unfold QueryTypeHelper.fromTypeObject.
    cbn [QueryTypeHelper.toString].
    rewrite (fromName_reachable s r Hr).
    apply same_name_any_case, name_table_lookup in Hs. rewrite Hs. reflexivity. }
  split; [| split; [| split]].
  - unfold QueryTypeHelper.fromTypeObject.
    rewrite (fromID_reachable _ r Hr), Hid. reflexivity.
  - apply Hname. reflexivity.
  - apply Hname. rewrite <- (toLowerCase_toUpperCase (toLowerCase _)).
    rewrite toUpperCase_toLowerCase, toLowerCase_toUpperCase. reflexivity.
  - intros q' Heq. destruct q, q'; simpl in Heq; congruence.
Qed.

Lemma fromTypeObject_round_trip_witness :
  fst (QueryTypeHelper.fromTypeObject (VStr "like") QueryTypeHelper.initial)
  = Return (Some LIKE).
Proof.
  destruct (fromTypeObject_round_trip LIKE QueryTypeHelper.initial) as (_ & _ & H & _).
  - left. reflexivity.
  - exact H.
Defined.
(** ** [fetchNestedValue], results *)

Lemma fetchNestedValue_walk_result (keys : list string) :
  forall (obj fallback : Value),
    let run := fetchNestedValue_walk obj keys fallback in
    (fst run = fallback \/ loose_null (fst run) = false)
    /\ (fst run <> fallback -> snd run = []).
Proof.
  induction keys as [| key rest IH]; intros obj fallback; simpl.
  - destruct (loose_null obj); simpl; split; auto; congruence.
  - destruct (loose_null obj); simpl; [split; auto; congruence |].
    destruct (getProperty obj key) eqn:Hval; simpl;
      try (split; auto; congruence).
    all: destruct rest as [| key' rest'];
      [simpl; split; auto | rewrite <- Hval; apply IH].
Qed.

(** X6. [fetchNestedValue] never hands out a [null] or an [undefined] of
    the structure it walks: whatever the root and the path, array or
    string, the result is the fallback, which is [null] when the argument
    is [undefined] or left out, or a value that is neither [null] nor
    [undefined].  So the result is never [undefined]. *)
Theorem fetchNestedValue_fallback_or_value (obj : Value) (path : Path) (fallback : Value) :
  (fst (fetchNestedValue obj path fallback) = default_null fallback
   \/ loose_null (fst (fetchNestedValue obj path fallback)) = false)
  /\ fst (fetchNestedValue obj path fallback) <> VUndefined.
Proof.
  assert (H : fst (fetchNestedValue obj path fallback) = default_null fallback
              \/ loose_null (fst (fetchNestedValue obj path fallback)) = false).
  { destruct path as [keys | s]; unfold fetchNestedValue.
    - destruct (fetchNestedValue_walk_result keys obj (default_null fallback)) as [H _].
      destruct (fetchNestedValue_walk obj keys (default_null fallback)). exact H.
    - destruct (fetchNestedValue_walk_result (split "." s) obj (default_null fallback))
        as [H _].
      exact H. }
  split; [exact H |].
  destruct H as [-> | H].
  - destruct fallback; discriminate.
  - intros Heq. rewrite Heq in H. discriminate H.
Qed.

(** X7. When a call on a caller-owned array returns anything but the
    fallback, which is [null] when the argument is [undefined] or left
    out, it has used up the whole path: the array is left empty. *)
Theorem fetchNestedValue_found_empties_path
    (obj : Value) (keys : list string) (fallback : Value) :
  fst (fetchNestedValue obj (PathArray keys) fallback) <> default_null fallback ->
  snd (fetchNestedValue obj (PathArray keys) fallback) = PathArray [].
Proof.
  unfold fetchNestedValue.
  destruct (fetchNestedValue_walk_result keys obj (default_null fallback)) as [_ H].
  destruct (fetchNestedValue_walk obj keys (default_null fallback)) as [v keys'].
  simpl in *. intros Hv. rewrite (H Hv). reflexivity.
Qed.

Lemma fetchNestedValue_found_empties_path_witness :
  snd (fetchNestedValue Sample.nested (PathArray ["a"; "b"]) (VNum (-1))) = PathArray [].
Proof.
  apply (fetchNestedValue_found_empties_path Sample.nested ["a"; "b"] (VNum (-1))).
  discriminate.
Defined.

Lemma fetchNestedValue_walk_app (front : list string) :
  forall (obj fallback : Value) (back : list string),
    front <> [] -> back <> [] ->
    let reached := fst (fetchNestedValue_walk obj front VNull) in
    fst (fetchNestedValue_walk obj (front ++ back) fallback)
    = if loose_null reached then fallback
      else fst (fetchNestedValue_walk reached back fallback).
Proof.
  induction front as [| key rest IH]; intros obj fallback back Hfront Hback;
    [contradiction |].
  simpl. destruct (loose_null obj) eqn:Hobj; [reflexivity |].
  destruct (getProperty obj key) eqn:Hval; try reflexivity.
  all: destruct rest as [| key' rest'].
  all: try (simpl; destruct back; [contradiction | reflexivity]).
  all: rewrite <- Hval; apply (IH _ fallback back); [discriminate | assumption].
Qed.

(** X8. Paths compose: for two non-empty arrays of keys, walking
    [front ++ back] from a root is walking [back] from what [front]
    reaches, and gives the fallback, which is [null] when the argument is
    [undefined] or left out, when [front] reaches nothing. *)
Theorem fetchNestedValue_concat
    (obj fallback : Value) (front back : list string) :
  front <> [] -> back <> [] ->
  let reached := fst (fetchNestedValue obj (PathArray front) VNull) in
  fst (fetchNestedValue obj (PathArray (front ++ back)) fallback)
  = if loose_null reached then default_null fallback
    else fst (fetchNestedValue reached (PathArray back) fallback).
Proof.
  intros Hfront Hback. unfold fetchNestedValue.
  pose proof (fetchNestedValue_walk_app front obj (default_null fallback) back
                Hfront Hback) as H.
  change (default_null VNull) with VNull.
  simpl in H.
  destruct (fetchNestedValue_walk obj (front ++ back) (default_null fallback)) as [v1 k1].
  destruct (fetchNestedValue_walk obj front VNull) as [v2 k2].
  simpl in *. rewrite H. destruct (loose_null v2); [reflexivity |].
  destruct (fetchNestedValue_walk v2 back (default_null fallback)). reflexivity.
Qed.

Lemma fetchNestedValue_concat_witness :
  fst (fetchNestedValue Sample.nested (PathArray (["a"] ++ ["b"])) (VNum (-1)))
  = fst (fetchNestedValue (VObject 105 [("b", VNum 5)]) (PathArray ["b"]) (VNum (-1))).
Proof.
  exact (fetchNestedValue_concat Sample.nested (VNum (-1)) ["a"] ["b"]
           ltac:(discriminate) ltac:(discriminate)).
Defined.

(** ** Leaves *)

Lemma strict_eq_sym (a b : Value) : strict_eq a b = strict_eq b a.
Proof.
  destruct a, b; simpl; try reflexivity.
  - destruct b, b0; reflexivity.
  - apply Z.eqb_sym.
  - apply String.eqb_sym.
  - apply Nat.eqb_sym.
  - apply Nat.eqb_sym.
Qed.

(** X9. The comparison of the base class is strict equality and does
    not depend on the side a value is on. *)
Theorem testValues_symmetric (x y : Value) :
  testValues x y = strict_eq x y /\ testValues x y = testValues y x.
Proof.
  rewrite !testValues_strict_eq. split; [apply strict_eq_sym |].
  apply strict_eq_sym.
Qed.

Lemma testChildren_ext {A : Type} (f g : A -> bool) (result : bool) (children : list A) :
  Forall (fun c => f c = g c) children ->
  testChildren f result children = testChildren g result children.
Proof.
  intros Hext. revert result.
  induction Hext as [| c cs Hc _ IH]; intros result; simpl; [reflexivity |].
  rewrite Hc, IH. reflexivity.
Qed.

(** X10. A test never reads what the argument map binds: the argument of
    a leaf is read as a member of the [Map] object, and the one member
    that the entries show through is [size], their number.  So two maps
    with the same members of their own and as many entries give the same
    answer on every tree and candidate, whatever they bind. *)
Theorem testWithArgMap_ignores_entries
    (q : Query) (t : Value) (r r' : nat) (entries entries' : list (Value * Value))
    (props : list (string * Value)) :
  length entries = length entries' ->
  testWithArgMap q t (Some (mkMap r entries props))
  = testWithArgMap q t (Some (mkMap r' entries' props)).
Proof.
  intros Hsize.
  induction q as [l cmp f a m | l children m IH] using Query_tree_ind.
  - simpl. unfold getAndTestFieldValue.
    rewrite (getArgumentValue_reads_members r r' entries entries' props a Hsize).
    reflexivity.
  - simpl. f_equal. apply testChildren_ext. exact IH.
Qed.

Lemma testWithArgMap_ignores_entries_witness :
  testWithArgMap Sample.two Sample.alice (Some Sample.args)
  = testWithArgMap Sample.two Sample.alice
      (Some (mkMap 100 [(VStr "0", VNum 11); (VStr "1", VStr "alice")] [])).
Proof.
  apply (testWithArgMap_ignores_entries Sample.two Sample.alice 100 100
           [(VStr "0", VNum 10); (VStr "1", VStr "bob")]
           [(VStr "0", VNum 11); (VStr "1", VStr "alice")] []).
  reflexivity.
Defined.



(** X12. A candidate that is not a [Map] has no fields: for every field
    name but [this], the pseudo-fields included, the leaf compares [null]
    with the argument value, whatever the candidate. *)
Theorem leaf_on_non_map
    (l : loc) (cmp : Value -> Value -> bool) (name : string) (a : option string)
    (m : option MapObj) (t : Value) (argMap : option MapObj) :
  (forall r entries props, t <> VMap r entries props) ->
  toLowerCase name <> "this" ->
  testWithArgMap (Condition l cmp (Some name) a m) t argMap
  = cmp VNull (getArgumentValue argMap a).
Proof.
  intros Hmap Hthis. simpl. unfold getAndTestFieldValue, getFieldValue.
  apply String.eqb_neq in Hthis. rewrite Hthis.
  destruct t; try reflexivity.
  exfalso. eapply Hmap. reflexivity.
Qed.

(** X13. A leaf whose field name is [null], or [this] in any case,
    compares the candidate itself with the argument value, for every
    candidate, a [Map] included. *)
Theorem leaf_on_this
    (l : loc) (cmp : Value -> Value -> bool) (f a : option string)
    (m : option MapObj) (t : Value) (argMap : option MapObj) :
  f = None \/ (exists name, f = Some name /\ toLowerCase name = "this") ->
  testWithArgMap (Condition l cmp f a m) t argMap
  = cmp t (getArgumentValue argMap a).
Proof.
  intros [-> | (name & -> & Hthis)]; simpl; unfold getAndTestFieldValue.
  - destruct t; reflexivity.
  - unfold getFieldValue, field_is. rewrite Hthis.
    destruct t; reflexivity.
Qed.

Lemma leaf_on_non_map_witness :
  testWithArgMap (Condition 7 testValues (Some "_key") None None) (VNum 3) None = true.
Proof.
  rewrite (leaf_on_non_map 7 testValues "_key" None None (VNum 3) None).
  - reflexivity.
  - discriminate.
  - discriminate.
Defined.

Lemma leaf_on_this_witness :
  testWithArgMap (Condition 7 testValues (Some "This") None None) VNull None = true.
Proof.
  rewrite (leaf_on_this 7 testValues (Some "This") None None VNull None).
  - reflexivity.
  - right. exists "This". split; reflexivity.
Defined.

(** ** [keyValuesMap], the maps *)



(** What a run of [keyValuesMap] does to the heap of maps and what it
    returns, in terms of the number of leaves. *)
Lemma keyValuesMap_heap (q : Query) :
  forall (acc : option nat) (h : MapHeap),
  exists added,
    snd (keyValuesMap q acc h) = h ++ added
    /\ length added = length (leaves q)
    /\ fst (keyValuesMap q acc h)
       = match length (leaves q) with
         | O => acc
         | S n => Some (length h + n)
         end.
Proof.
  induction q as [l cmp f a m | l children m IH] using Query_tree_ind; intros acc h.
  - destruct (keyValuesMap_condition l cmp f a m acc h) as (kv & Hrun & _).
    exists [kv]. rewrite Hrun. simpl. repeat split. f_equal. lia.
  - cbn [keyValuesMap leaves]. revert acc h.
    induction IH as [| c cs Hc _ IHcs]; intros acc h.
    + exists []. simpl. rewrite app_nil_r. repeat split.
    + cbn [fold_left flat_map fst snd].
      destruct (Hc acc h) as (a1 & Hh1 & Hlen1 & Hacc1).
      destruct (keyValuesMap c acc h) as [acc1 h1]. simpl in Hh1, Hacc1. subst h1.
      destruct (IHcs acc1 (h ++ a1)) as (a2 & Hh2 & Hlen2 & Hacc2).
      exists (a1 ++ a2). cbn [fst snd].
      rewrite Hh2, Hacc2, app_assoc, !length_app, Hlen1, Hlen2.
      repeat split.
      destruct (length (flat_map leaves cs)) as [| n2].
      * rewrite Nat.add_0_r. exact Hacc1.
      * destruct (length (leaves c)); simpl; f_equal; lia.
Qed.

(** X15. [keyValuesMap] never writes to a map that was there before the
    call, the accumulator included: on every tree it leaves the heap of
    maps as it was and allocates one new map for each leaf of the tree. *)
Theorem keyValuesMap_allocates_per_leaf (q : Query) (acc : option nat) (h : MapHeap) :
  exists added,
    snd (keyValuesMap q acc h) = h ++ added
    /\ length added = length (leaves q).
Proof.
  destruct (keyValuesMap_heap q acc h) as (added & Hh & Hlen & _).
  exists added. auto.
Qed.

(** X16. What [keyValuesMap] returns is the accumulator it was given when
    the tree has no leaf, and otherwise the map that the last leaf
    allocated, which is never the accumulator. *)
Theorem keyValuesMap_returns (q : Query) (acc : option nat) (h : MapHeap) :
  (leaves q = [] -> keyValuesMap q acc h = (acc, h))
  /\ (leaves q <> [] ->
      fst (keyValuesMap q acc h) = Some (length h + length (leaves q) - 1)
      /\ (forall ref, acc = Some ref -> ref < length h ->
            fst (keyValuesMap q acc h) <> acc)).
Proof.
  destruct (keyValuesMap_heap q acc h) as (added & Hh & Hlen & Hret).
  split.
  - intros Hnone. rewrite Hnone in Hlen, Hret. simpl in Hlen, Hret.
    destruct added; [| discriminate].
    rewrite app_nil_r in Hh.
    destruct (keyValuesMap q acc h). simpl in *. congruence.
  - intros Hsome. destruct (leaves q) as [| leaf rest]; [contradiction |].
    simpl in Hret |- *. rewrite Hret. split.
    + f_equal. lia.
    + intros ref -> Hlt [= Heq]. lia.
Qed.

Lemma keyValuesMap_returns_witness :
  keyValuesMap (Combination 5 [Combination 6 [] Sample.args] Sample.args) (Some 0) [[]]
  = (Some 0, [[]])
  /\ fst (keyValuesMap Sample.three (Some 0) [[]]) = Some 3.
Proof.
  split.
  - apply (keyValuesMap_returns
             (Combination 5 [Combination 6 [] Sample.args] Sample.args) (Some 0) [[]]).
    reflexivity.
  - destruct (keyValuesMap_returns Sample.three (Some 0) [[]]) as [_ H].
    destruct H as [H _]; [discriminate |]. exact H.
Defined.

(** ** Combinations *)







Lemma map_with_argMap_ext (m : MapObj) (t : Value) (argMap : option MapObj)
    (children : list Query) :
  Forall (fun q => testWithArgMap (with_argMap m q) t argMap = testWithArgMap q t argMap)
         children ->
  forall result,
    testChildren (fun child => testWithArgMap child t argMap) result
                 (map (with_argMap m) children)
    = (fst (testChildren (fun child => testWithArgMap child t argMap) result children),
       map (with_argMap m)
           (snd (testChildren (fun child => testWithArgMap child t argMap) result children))).
Proof.
  induction 1 as [| c cs Hc _ IH]; intros result; simpl; [reflexivity |].
  rewrite Hc. destruct (testWithArgMap c t argMap); [| reflexivity].
  rewrite IH.
  destruct (testChildren (fun child => testWithArgMap child t argMap) true cs).
  reflexivity.
Qed.

(** X19. A test through a combination never reads the argument maps that
    the nodes store: replacing the stored map of every node of a tree
    changes no answer of [testWithArgMap], and [test] on a combination
    answers as if every node below stored the map of that combination. *)
Theorem testWithArgMap_ignores_stored_maps
    (m : MapObj) (q : Query) (t : Value) (argMap : option MapObj) :
  testWithArgMap (with_argMap m q) t argMap = testWithArgMap q t argMap
  /\ (forall l children own,
        q = Combination l children own ->
        test q t = test (with_argMap own q) t).
Proof.
  assert (H : forall q argMap,
             testWithArgMap (with_argMap m q) t argMap = testWithArgMap q t argMap).
  { clear q argMap. intros q argMap.
    induction q as [l cmp f a m0 | l children m0 IH] using Query_tree_ind.
    - reflexivity.
    - simpl. rewrite (map_with_argMap_ext m t argMap children IH). reflexivity. }
  split; [apply H |].
  intros l children own ->.
  assert (H' : forall q argMap,
             testWithArgMap (with_argMap own q) t argMap = testWithArgMap q t argMap).
  { clear. intros q argMap.
    induction q as [l cmp f a m0 | l children m0 IH] using Query_tree_ind.
    - reflexivity.
    - simpl. rewrite (map_with_argMap_ext own t argMap children IH). reflexivity. }
  change (test (Combination l children own) t)
    with (testWithArgMap (Combination l children own) t (Some own)).
  rewrite <- (H' (Combination l children own) (Some own)). reflexivity.
Qed.

Lemma testWithArgMap_ignores_stored_maps_witness :
  test Sample.two Sample.alice = test (with_argMap Sample.args Sample.two) Sample.alice.
Proof.
  destruct (testWithArgMap_ignores_stored_maps Sample.nobody Sample.two Sample.alice None)
    as [_ H].
  apply (H 0 [Sample.age; Sample.name] Sample.args). reflexivity.
Defined.
(** ** Searching *)



(** X21. A combination built in the three-argument form from two values
    that are no nodes has no child, so it matches no candidate and a
    search with it returns nothing, whatever the collection. *)
Theorem combination_without_nodes (self : loc) (arg1 arg2 arg3 : Arg) :
  is_query arg1 = false -> is_query arg2 = false ->
  is_array arg1 && is_map arg2 = false ->
  is_map arg3 = true ->
  exists q,
    new_CombinationBase self arg1 arg2 arg3 = Return q
    /\ childrenQuery q = Some []
    /\ (forall t, test q t = false)
    /\ (forall collection, search q collection = []).
Proof.
  intros Hq1 Hq2 Hshape Hmap.
  destruct arg3 as [| | [| | | | | | r entries props]]; try discriminate.
  exists (Combination self [] (mkMap r entries props)).
  split; [| split; [reflexivity | split; [reflexivity |]]].
  - destruct arg1 as [| elems |]; try discriminate;
      destruct arg2 as [| | [| | | | | |]]; try discriminate; reflexivity.
  - intros collection.
    assert (Hnone : forall l, List.filter
                      (fun item => test (Combination self [] (mkMap r entries props)) item) l
                    = []) by (induction l; auto).
    destruct collection; apply Hnone.
Qed.

Lemma combination_without_nodes_witness :
  exists q,
    new_CombinationBase 9 (AValue VNull) (AValue VUndefined) (AValue (of_map Sample.args))
    = Return q
    /\ search q (CArray [Sample.alice; Sample.blank]) = [].
Proof.
  destruct (combination_without_nodes 9 (AValue VNull) (AValue VUndefined)
              (AValue (of_map Sample.args))) as (q & Hq & _ & _ & Hsearch);
    try reflexivity.
  exists q. split; [exact Hq | apply Hsearch].
Defined.

(** ** [fieldQueryMap] *)

Lemma entry_push_bucket {A : Type} (key k : string) (x : A) (ret : list (string * list A)) :
  entry k (push_bucket key x ret)
  = if String.eqb key k then Some (bucket key ret ++ [x]) else entry k ret.
Proof.
  unfold bucket. induction ret as [| [k' b] ret IH]; simpl.
  - destruct (String.eqb key k); reflexivity.
  - destruct (String.eqb k' key) eqn:Hk'; simpl.
    + apply String.eqb_eq in Hk'. subst k'.
      destruct (String.eqb key k); reflexivity.
    + rewrite IH. destruct (String.eqb key k) eqn:Hk; [| reflexivity].
      apply String.eqb_eq in Hk. subst k. rewrite Hk'. reflexivity.
Qed.

Lemma fieldQueryMap_bucket (name : string) (q : Query) :
  truthy_str name = true ->
  forall ret,
    bucket name (fieldQueryMap q ret)
    = bucket name ret ++ List.filter (on_field name) (leaves q).
Proof.
  intros Hname.
  induction q as [l cmp f a m | l children m IH] using Query_tree_ind; intros ret.
  - cbn [fieldQueryMap leaves List.filter]. unfold on_field. cbn [fieldName].
    destruct f as [key |]; [| rewrite app_nil_r; reflexivity].
    destruct (String.eqb key name) eqn:Hkey.
    + apply String.eqb_eq in Hkey. subst key. rewrite Hname.
      unfold bucket at 1. rewrite entry_push_bucket, String.eqb_refl. reflexivity.
    + rewrite app_nil_r. destruct (truthy_str key); [| reflexivity].
      unfold bucket. rewrite entry_push_bucket, Hkey. reflexivity.
  - cbn [fieldQueryMap leaves]. revert ret.
    induction IH as [| c cs Hc _ IHcs]; intros ret; simpl.
    + rewrite app_nil_r. reflexivity.
    + rewrite IHcs, Hc, List.filter_app, app_assoc. reflexivity.
Qed.

Lemma fieldQueryMap_keys (q : Query) :
  forall ret, entry "" ret = None -> entry "" (fieldQueryMap q ret) = None.
Proof.
  induction q as [l cmp f a m | l children m IH] using Query_tree_ind; intros ret Hret.
  - cbn [fieldQueryMap]. destruct f as [key |]; [| exact Hret].
    destruct (truthy_str key) eqn:Hkey; [| exact Hret].
    rewrite entry_push_bucket.
    destruct (String.eqb key "") eqn:Heq; [| exact Hret].
    apply String.eqb_eq in Heq. subst key. discriminate.
  - cbn [fieldQueryMap]. revert ret Hret.
    induction IH as [| c cs Hc _ IHcs]; intros ret Hret; simpl; auto.
Qed.

(** X22. [fieldQueryMap] indexes the leaves by field: for every name that
    is not empty, the bucket of the name holds the leaves of the tree that
    are on that field, all of them, in the order of the tree; and the
    empty name has no bucket. *)
Theorem fieldQueryMap_buckets (q : Query) (name : string) :
  (truthy_str name = true ->
     bucket name (fieldQueryMap q []) = List.filter (on_field name) (leaves q))
  /\ entry "" (fieldQueryMap q []) = None.
Proof.
  split.
  - intros Hname. rewrite (fieldQueryMap_bucket name q Hname). reflexivity.
  - apply fieldQueryMap_keys. reflexivity.
Qed.

Lemma fieldQueryMap_buckets_witness :
  bucket "age" (fieldQueryMap Sample.outer []) = [Sample.age; Sample.age; Sample.age].
Proof.
  destruct (fieldQueryMap_buckets Sample.outer "age") as [H _].
  rewrite H; reflexivity.
Defined.

(** ** Arguments *)








(** ** [replaceQuery] and the tree it leaves *)

Lemma self_of_substitute (original : loc) (other q : Query) :
  self_of (substitute original other q) = spliced original (self_of other) (self_of q).
Proof.
  unfold spliced. destruct q as [l cmp f a m | l children m]; simpl;
    destruct (decide (l = original)); reflexivity.
Qed.

(** A heap that agrees on the leaf objects and on the combinations of a
    tree holds the tree as well. *)
Lemma repr_frame (h h' : heap) (q : Query) :
  repr h q ->
  (forall l, l ∈ combinations q -> h' !! l = h !! l) ->
  (forall l cmp f a m, h !! l = Some (ConditionObj cmp f a m) -> h' !! l = h !! l) ->
  repr h' q.
Proof.
  intros Hrepr Hcomb Hleaf. revert Hrepr Hcomb.
  induction q as [l cmp f a m | l children m IH] using Query_tree_ind;
    intros Hrepr Hcomb; inversion Hrepr as [? ? ? ? ? Hobj | ? ? ? Hobj Hchildren].
  - apply repr_condition. rewrite (Hleaf _ _ _ _ _ Hobj). exact Hobj.
  - apply repr_combination.
    + rewrite Hcomb by (simpl; apply elem_of_cons; auto). exact Hobj.
    + rewrite Forall_forall in *. intros c Hc.
      apply IH; [exact Hc | auto |].
      intros l' Hl'. apply Hcomb. simpl. apply elem_of_cons. right.
      apply list_elem_of_In, in_flat_map. exists c.
      split; apply list_elem_of_In; assumption.
Qed.

Lemma repr_substitute (original : loc) (other : Query) (W : list loc) (h h' : heap) :
  rewritten original (self_of other) W h h' ->
  repr h other ->
  (forall l, l ∈ combinations other -> l ∉ W) ->
  forall q,
    repr h q ->
    (forall l, l ∈ walked original q -> l ∈ W) ->
    repr h' (substitute original other q).
Proof.
  intros [Hin Hout] Hother Hfresh.
  assert (Hleaf : forall l cmp f a m,
            h !! l = Some (ConditionObj cmp f a m) -> h' !! l = h !! l).
  { intros l cmp f a m Hobj. apply Hout. intros Hl.
    destruct (Hin l Hl) as (cs & m' & Hcomb & _). congruence. }
  assert (Hother' : repr h' other).
  { apply (repr_frame h); [exact Hother | | exact Hleaf].
    intros l Hl. apply Hout, Hfresh, Hl. }
  induction q as [l cmp f a m | l children m IH] using Query_tree_ind;
    intros Hrepr Hwalk; simpl; destruct (decide (l = original)) as [Heq | Hne];
    try exact Hother'.
  - inversion Hrepr as [? ? ? ? ? Hobj |].
    apply repr_condition. rewrite (Hleaf _ _ _ _ _ Hobj). exact Hobj.
  - inversion Hrepr as [| ? ? ? Hobj Hchildren].
    simpl in Hwalk. rewrite decide_False in Hwalk by exact Hne.
    apply repr_combination.
    + destruct (Hin l) as (cs & m' & Hh & Hh'); [apply Hwalk, elem_of_cons; auto |].
      rewrite Hobj in Hh. injection Hh as <- <-. rewrite Hh'. do 2 f_equal.
      rewrite !map_map. apply map_ext. intros c.
      symmetry. apply self_of_substitute.
    + rewrite Forall_forall in *. intros c' Hc'.
      apply list_elem_of_In, in_map_iff in Hc' as (c & <- & Hc).
      apply list_elem_of_In in Hc.
      apply IH; [exact Hc | auto |].
      intros l' Hl'. apply Hwalk, elem_of_cons. right.
      apply elem_of_flat_map_walked. eauto.
Qed.

(** X25. On a heap that holds the tree and the replacement, when the
    combinations walked are distinct objects and the replacement has none
    of them below it, [replaceQuery] leaves in the heap the tree with the
    replacement substituted for every occurrence of [original], and
    returns its root. *)
Theorem replaceQuery_substitutes (h : heap) (q other : Query) (original : loc) :
  repr h q ->
  repr h other ->
  NoDup (walked original q) ->
  (forall l, l ∈ combinations other -> l ∉ walked original q) ->
  exists n, forall fuel, n <= fuel ->
    exists h',
      replaceQuery fuel h (self_of q) original (self_of other)
      = Some (self_of (substitute original other q), h')
      /\ repr h' (substitute original other q).
Proof.
  intros Hrepr Hother Hnodup Hfresh.
  destruct (replaceQuery_rewrites original (self_of other) q h
              (repr_repr_upto original h q Hrepr) Hnodup) as [n Hn].
  exists n. intros fuel Hfuel.
  destruct (Hn fuel Hfuel) as (h' & Hrun & Hrew).
  exists h'. split.
  - rewrite self_of_substitute. exact Hrun.
  - apply (repr_substitute original other (walked original q) h h'); auto.
Qed.

Lemma replaceQuery_substitutes_witness :
  exists n, forall fuel, n <= fuel ->
    exists h',
      replaceQuery fuel Sample.store 10 1 3 = Some (10, h')
      /\ repr h' (Combination 10 [Sample.city;
                                  Combination 11 [Sample.city; Sample.name] Sample.args;
                                  Sample.city] Sample.args).
Proof.
  assert (Hrepr : repr Sample.store Sample.outer).
  { apply repr_combination; [reflexivity |]. repeat constructor. }
  assert (Hother : repr Sample.store Sample.city) by (constructor; reflexivity).
  assert (Hnodup : NoDup (walked 1 Sample.outer)).
  { apply (bool_decide_unpack _). vm_compute. exact I. }
  destruct (replaceQuery_substitutes Sample.store Sample.outer Sample.city 1
              Hrepr Hother Hnodup) as [n Hn].
  - intros l Hl. inversion Hl.
  - exists n. intros fuel Hfuel.
    destruct (Hn fuel Hfuel) as (h' & Hrun & Hrepr'). exists h'. split; assumption.
Defined.

(** The slots of a combination walked hold identities of the tree. *)
Lemma walked_children (original : loc) (h : heap) (q : Query) :
  repr h q ->
  forall l children m,
    l ∈ walked original q ->
    h !! l = Some (CombinationObj children m) ->
    forall c, c ∈ children -> c ∈ identities q.
Proof.
  induction q as [l0 cmp f a m0 | l0 cs m0 IH] using Query_tree_ind;
    intros Hrepr l children m Hl Hobj c Hc.
  - inversion Hl.
  - inversion Hrepr as [| ? ? ? Hobj0 Hchildren].
    simpl in Hl. destruct (decide (l0 = original)); [inversion Hl |].
    simpl. apply elem_of_cons. right.
    apply list_elem_of_In, in_flat_map.
    apply elem_of_cons in Hl as [-> | Hl].
    + rewrite Hobj0 in Hobj. injection Hobj as <- <-.
      apply list_elem_of_In, in_map_iff in Hc as (child & <- & Hchild).
      exists child. split; [exact Hchild |].
      apply list_elem_of_In. destruct child; simpl; apply elem_of_cons; auto.
    + apply elem_of_flat_map_walked in Hl as (child & Hchild & Hl).
      rewrite Forall_forall in IH, Hchildren.
      exists child. split; [apply list_elem_of_In; exact Hchild |].
      apply list_elem_of_In. eapply IH; eauto.
Qed.

(** X26. [replaceQuery] changes nothing when there is nothing to do: on a
    heap that holds the tree, when [original] is no node of the tree, or
    when the replacement is [original] itself, the call returns the
    receiver and leaves the heap as it was. *)
Theorem replaceQuery_nothing_to_do (h : heap) (q : Query) (original replacement : loc) :
  repr h q ->
  NoDup (walked original q) ->
  original ∉ identities q \/ replacement = original ->
  exists n, forall fuel, n <= fuel ->
    replaceQuery fuel h (self_of q) original replacement = Some (self_of q, h).
Proof.
  intros Hrepr Hnodup Hcase.
  destruct (replaceQuery_rewrites original replacement q h
              (repr_repr_upto original h q Hrepr) Hnodup) as [n Hn].
  exists n. intros fuel Hfuel.
  destruct (Hn fuel Hfuel) as (h' & Hrun & Hin & Hout).
  assert (Hsame : forall c, c ∈ identities q -> spliced original replacement c = c).
  { intros c Hc. unfold spliced. destruct (decide (c = original)) as [-> |]; [| reflexivity].
    destruct Hcase as [Habsent | ->]; [contradiction | reflexivity]. }
  rewrite Hrun. f_equal. f_equal.
  - apply Hsame. destruct q; simpl; apply elem_of_cons; auto.
  - apply map_eq. intros l.
    destruct (decide (l ∈ walked original q)) as [Hl | Hl]; [| apply Hout, Hl].
    destruct (Hin l Hl) as (children & m & Hh & Hh'). rewrite Hh, Hh'.
    do 2 f_equal. rewrite <- (map_id children) at 2.
    apply map_ext_in. intros c Hc. apply Hsame.
    apply (walked_children original h q Hrepr l children m Hl Hh).
    apply list_elem_of_In. exact Hc.
Qed.

Lemma replaceQuery_nothing_to_do_witness :
  exists n, forall fuel, n <= fuel ->
    replaceQuery fuel Sample.store 10 3 2 = Some (10, Sample.store).
Proof.
  assert (Hrepr : repr Sample.store Sample.outer).
  { apply repr_combination; [reflexivity |]. repeat constructor. }
  assert (Hnodup : NoDup (walked 3 Sample.outer)).
  { apply (bool_decide_unpack _). vm_compute. exact I. }
  apply (replaceQuery_nothing_to_do Sample.store Sample.outer 3 2 Hrepr Hnodup).
  left. apply (bool_decide_unpack _). vm_compute. exact I.
Defined.
(** ** Rendering *)

Lemma replace_placeholders_head (s : string) :
  match replace_placeholders false s, s with
  | String d' _, String d _ => QueryTypeHelper.is_digit d' = true ->
                               QueryTypeHelper.is_digit d = true
  | String _ _, EmptyString => False
  | EmptyString, _ => True
  end.
Proof.
  destruct s as [| c rest]; simpl; [exact I |].
  destruct rest as [| d r]; [auto |].
  destruct (Ascii.eqb c ":" && QueryTypeHelper.is_digit d); [| auto].
  discriminate.
Qed.

Lemma replace_placeholders_clean (s : string) :
  forall in_digits, no_placeholder (replace_placeholders in_digits s) = true.
Proof.
  induction s as [| c rest IH]; intros in_digits; [reflexivity |].
  cbn [replace_placeholders].
  destruct (in_digits && QueryTypeHelper.is_digit c); [apply IH |].
  destruct rest as [| d r]; [reflexivity |].
  destruct (Ascii.eqb c ":" && QueryTypeHelper.is_digit d) eqn:Hmatch.
  - specialize (IH true).
    destruct (replace_placeholders true (String d r)); [reflexivity |].
    cbn [no_placeholder]. exact IH.
  - pose proof (replace_placeholders_head (String d r)) as Hhead.
    specialize (IH false).
    destruct (replace_placeholders false (String d r)) as [| d' r'] eqn:Hout;
      [reflexivity |].
    change (negb (Ascii.eqb c ":" && QueryTypeHelper.is_digit d')
            && no_placeholder (String d' r') = true).
    rewrite IH, andb_true_r.
    destruct (Ascii.eqb c ":"); [| reflexivity].
    destruct (QueryTypeHelper.is_digit d') eqn:Hd'; [| reflexivity].
    rewrite (Hhead eq_refl) in Hmatch. discriminate.
Qed.

Lemma replace_placeholders_fixed (s : string) :
  no_placeholder s = true -> replace_placeholders false s = s.
Proof.
  induction s as [| c rest IH]; [reflexivity |].
  cbn [replace_placeholders no_placeholder]. rewrite ?andb_false_l.
  destruct rest as [| d r]; [reflexivity |].
  intros [Hc Hrest]%andb_prop.
  apply negb_true_iff in Hc. rewrite Hc, (IH Hrest). reflexivity.
Qed.

(** X27. Whatever the symbols of the nodes, the SQL form of a tree has
    no colon with a digit after it; rendering it to SQL once more changes
    nothing; and a rendering without such a colon is its own SQL form. *)
Theorem toSqlString_clean (operatorSymbol : Query -> string) (q : Query) :
  no_placeholder (toSqlString operatorSymbol q) = true
  /\ replace_placeholders false (toSqlString operatorSymbol q)
     = toSqlString operatorSymbol q
  /\ (no_placeholder (toString operatorSymbol q) = true ->
      toSqlString operatorSymbol q = toString operatorSymbol q).
Proof.
  unfold toSqlString. split; [| split].
  - apply replace_placeholders_clean.
  - apply replace_placeholders_fixed, replace_placeholders_clean.
  - apply replace_placeholders_fixed.
Qed.

Lemma toSqlString_clean_witness :
  toSqlString baseSymbol (Condition 1 testValues (Some "age") (Some "limit") None)
  = toString baseSymbol (Condition 1 testValues (Some "age") (Some "limit") None).
Proof.
  destruct (toSqlString_clean baseSymbol
              (Condition 1 testValues (Some "age") (Some "limit") None)) as (_ & _ & H).
  apply H. reflexivity.
Defined.

Lemma append_assoc (s1 s2 s3 : string) :
  ((s1 ++ s2) ++ s3 = s1 ++ (s2 ++ s3))%string.
Proof.
  induction s1 as [| c s1 IH]; [reflexivity |].
  change (String c ((s1 ++ s2) ++ s3) = String c (s1 ++ (s2 ++ s3)))%string.
  f_equal. exact IH.
Qed.

Lemma replace_placeholders_app (front back : string) :
  without ":" front = true ->
  back <> EmptyString ->
  replace_placeholders false (front ++ back)
  = (front ++ replace_placeholders false back)%string.
Proof.
  intros Hfront Hback.
  induction front as [| c rest IH]; [reflexivity |].
  cbn [without] in Hfront. apply andb_prop in Hfront as [Hc Hrest].
  apply negb_true_iff in Hc. specialize (IH Hrest).
  change (String c rest ++ back)%string with (String c (rest ++ back)).
  change (String c rest ++ replace_placeholders false back)%string
    with (String c (rest ++ replace_placeholders false back)).
  cbn [replace_placeholders]. rewrite ?andb_false_l.
  destruct (rest ++ back)%string as [| d tail] eqn:Happ.
  - destruct rest; [simpl in Happ; contradiction | discriminate].
  - rewrite Hc, andb_false_l, IH. reflexivity.
Qed.

Lemma replace_placeholders_digits (digits : string) :
  QueryTypeHelper.all_digits digits = true ->
  replace_placeholders true digits = EmptyString.
Proof.
  induction digits as [| c rest IH]; [reflexivity |].
  cbn [QueryTypeHelper.all_digits replace_placeholders].
  intros [Hc Hrest]%andb_prop. rewrite Hc, ?andb_true_l. apply IH, Hrest.
Qed.

Lemma without_app (c : ascii) (s1 s2 : string) :
  without c (s1 ++ s2) = without c s1 && without c s2.
Proof.
  induction s1 as [| d s1 IH]; [reflexivity |].
  simpl. rewrite IH, andb_assoc. reflexivity.
Qed.

(** X28. A leaf whose argument name is a number renders to SQL with one
    question mark for the argument: when neither the field name nor the
    symbol has a colon, the SQL form is the quoted field, the symbol and
    [?]. *)
Theorem toSqlString_positional
    (operatorSymbol : Query -> string) (l : loc) (cmp : Value -> Value -> bool)
    (field digits : string) (m : option MapObj) :
  let leaf := Condition l cmp (Some field) (Some digits) m in
  without ":" field = true ->
  without ":" (operatorSymbol leaf) = true ->
  digits <> EmptyString ->
  QueryTypeHelper.all_digits digits = true ->
  toSqlString operatorSymbol leaf
  = (dquote ++ field ++ dquote ++ " " ++ operatorSymbol leaf ++ " ?")%string.
Proof.
  intros leaf Hfield Hsymbol Hne Hdigits.
  unfold toSqlString.
  change (toString operatorSymbol leaf)
    with (dquote ++ field ++ dquote ++ " " ++ operatorSymbol leaf ++ " :" ++ digits)%string.
  assert (Hsplit :
    (dquote ++ field ++ dquote ++ " " ++ operatorSymbol leaf ++ " :" ++ digits)%string
    = ((dquote ++ field ++ dquote ++ " " ++ operatorSymbol leaf ++ " ")
       ++ String ":" digits)%string).
  { rewrite !append_assoc. reflexivity. }
  rewrite Hsplit, replace_placeholders_app.
  - destruct digits as [| d ds]; [contradiction |].
    cbn [QueryTypeHelper.all_digits] in Hdigits.
    apply andb_prop in Hdigits as [Hd Hds].
    cbn [replace_placeholders].
    rewrite ?andb_false_l, Hd, ?Ascii.eqb_refl, ?andb_true_l.
    rewrite (replace_placeholders_digits ds Hds).
    rewrite !append_assoc. reflexivity.
  - rewrite !without_app, Hfield, Hsymbol. reflexivity.
  - discriminate.
Qed.

Lemma toSqlString_positional_witness :
  toSqlString baseSymbol Sample.age = (dquote ++ "age" ++ dquote ++ " = ?")%string.
Proof.
  apply (toSqlString_positional baseSymbol 1 testValues "age" "0" (Some Sample.args));
    try reflexivity.
  discriminate.
Defined.

Lemma trimEnd_closed (s : string) (c : ascii) :
  is_space c = false ->
  trimEnd (s ++ String c EmptyString) = (s ++ String c EmptyString)%string.
Proof.
  intros Hc. induction s as [| d s IH].
  - change (trimEnd (String c EmptyString) = String c EmptyString).
    cbn [trimEnd]. rewrite Hc. reflexivity.
  - change (String d s ++ String c EmptyString)%string
      with (String d (s ++ String c EmptyString)).
    cbn [trimEnd]. rewrite IH.
    destruct (s ++ String c EmptyString)%string eqn:Happ; [| reflexivity].
    destruct s; discriminate.
Qed.

(** X29. A combination of one child whose symbol is not [AND] always
    takes the branch that adds the parentheses, the test for a leading
    parenthesis never holding: when the symbol starts with a character that
    is no space, the text is the symbol, an opening parenthesis, two
    spaces, the text of the child (in parentheses of its own when it is a
    combination), a space and a closing parenthesis. *)
Theorem toString_single_child
    (operatorSymbol : Query -> string) (l : loc) (child : Query) (m : MapObj)
    (c0 : ascii) (symbol : string) :
  let q := Combination l [child] m in
  operatorSymbol q = String c0 symbol ->
  is_space c0 = false ->
  String c0 symbol <> "AND" ->
  toString operatorSymbol q
  = (String c0 symbol ++ "(  "
     ++ (if isCombinationOperator child
         then "(" ++ toString operatorSymbol child ++ ")"
         else toString operatorSymbol child)
     ++ " )")%string.
Proof.
  intros q Hsymbol Hspace Hand. subst q.
  cbn [toString fold_left render_step fst length Nat.eqb Nat.ltb Nat.leb].
  rewrite Hsymbol.
  apply String.eqb_neq in Hand. rewrite Hand.
  set (wrapped := if isCombinationOperator child
                  then ("(" ++ toString operatorSymbol child ++ ")")%string
                  else toString operatorSymbol child).
  change (EmptyString ++ " " ++ wrapped)%string with (String " " wrapped).
  change (String.prefix "(" (String " " wrapped)) with false.
  change (true && negb false) with true. cbv iota.
  assert (Heq : (String c0 symbol ++ "( " ++ String " " wrapped ++ " )")%string
                = ((String c0 symbol ++ "(  " ++ wrapped ++ " ") ++ ")")%string).
  { rewrite !append_assoc. reflexivity. }
  rewrite Heq. unfold trim.
  change ((String c0 symbol ++ "(  " ++ wrapped ++ " ") ++ ")")%string
    with (String c0 ((symbol ++ "(  " ++ wrapped ++ " ") ++ ")"))%string.
  cbn [trimStart]. rewrite Hspace.
  change (String c0 ((symbol ++ "(  " ++ wrapped ++ " ") ++ ")"))%string
    with ((String c0 symbol ++ "(  " ++ wrapped ++ " ") ++ ")")%string.
  rewrite trimEnd_closed by reflexivity.
  rewrite !append_assoc. reflexivity.
Qed.

Lemma toString_single_child_witness :
  toString (fun q => match q with Combination _ _ _ => "NOT" | _ => "=" end)
           (Combination 5 [Sample.age] Sample.args)
  = ("NOT(  " ++ dquote ++ "age" ++ dquote ++ " = :0 )")%string.
Proof.
  apply (toString_single_child
           (fun q => match q with Combination _ _ _ => "NOT" | _ => "=" end)
           5 Sample.age Sample.args "N" "OT").
  - reflexivity.
  - reflexivity.
  - discriminate.
Defined.
